(** * LabelGenerator: the label generation engine of [app.py]

    A shallow embedding of the engine behind [build_labels_pdf]: the header
    normaliser, the order aggregator, the label card sequencer, the grid
    layout loop and the dine-in summary, with the properties of the design
    document stated and proved over it.

    Modelling conventions.
    - Strings are Rocq [string]s, read as ASCII text; [str.strip] and
      [str.lower] act on ASCII whitespace and ASCII letters.
    - Python integers are [Z]; 64-bit wrap-around of pandas columns is not
      modelled.
    - Lengths (reportlab points) are exact rationals [Q].
    - An exception is a value of [exn]; a function that may raise returns
      a [result]. *)

From Stdlib Require Import ZArith QArith Qround Lqa List String Ascii Lia Sorted.
From stdpp Require Import base option list sorting gmap strings pretty.

Local Open Scope string_scope.
Local Open Scope Z_scope.
Local Open Scope list_scope.

(** ** Exceptions and results *)

Inductive exn : Type :=
  | ValueError (msg : string)
  | KeyError (label : string)
  | AttributeError
  | TypeError
  | IntCastingNaNError.

Inductive result (A : Type) : Type :=
  | Raise (e : exn)
  | Ok (a : A).
Arguments Raise {A} e.
Arguments Ok {A} a.

#[global] Instance result_ret : MRet result := fun A a => Ok a.
#[global] Instance result_bind : MBind result := fun A B k m =>
  match m with
  | Raise e => Raise e
  | Ok a => k a
  end.
#[global] Instance result_fmap : FMap result := fun A B f m =>
  match m with
  | Raise e => Raise e
  | Ok a => Ok (f a)
  end.


(** [mapM] for [result]: run [f] over a list, stopping at the first
    exception. *)
Fixpoint traverse {A B} (f : A -> result B) (l : list A) : result (list B) :=
  match l with
  | [] => Ok []
  | a :: l' => b ← f a; bs ← traverse f l'; Ok (b :: bs)
  end.

(** ** Python string helpers *)

Module Py.

(** [str.isspace] on an ASCII character. *)
Definition isspace (c : ascii) : bool :=
  let n := N_of_ascii c in
  ((9 <=? n) && (n <=? 13) || (28 <=? n) && (n <=? 32))%N.

Fixpoint lstrip (s : string) : string :=
  match s with
  | String c s' => if isspace c then lstrip s' else s
  | EmptyString => EmptyString
  end.

Definition rstrip (s : string) : string :=
  String.rev (lstrip (String.rev s)).

(** [s.strip()] *)
Definition strip (s : string) : string := rstrip (lstrip s).

Definition lower_char (c : ascii) : ascii :=
  let n := N_of_ascii c in
  if ((65 <=? n) && (n <=? 90))%N then ascii_of_N (n + 32) else c.

(** [s.lower()] *)
Fixpoint lower (s : string) : string :=
  match s with
  | String c s' => String (lower_char c) (lower s')
  | EmptyString => EmptyString
  end.

(** [sep.join(parts)] *)
Fixpoint join (sep : string) (parts : list string) : string :=
  match parts with
  | [] => ""
  | [p] => p
  | p :: rest => p +:+ sep +:+ join sep rest
  end.

(** [str(n)] for an integer. *)
Definition str (n : Z) : string := pretty n.

End Py.

(** ** Numeric coercion of cells

    [pd.to_numeric(series, errors="coerce")] reads every cell as a decimal
    literal.  A cell that is not one becomes NaN; the spellings of infinity
    become an infinite float.  A literal is kept here as the exact decimal
    [mantissa * 10 ^ exponent]; rounding to a binary float is not modelled. *)

Inductive numeric : Type :=
  | NaN
  | Inf (negative : bool)
  | Dec (mantissa exponent : Z).

Module Numeric.

Definition digit (c : ascii) : option Z :=
  let n := N_of_ascii c in
  if ((48 <=? n) && (n <=? 57))%N then Some (Z.of_N n - 48) else None.

(** Consume a run of digits: the number read so far, how many digits were
    read, and what follows them. *)
Fixpoint digits (s : string) (acc : Z) (count : Z) : Z * Z * string :=
  match s with
  | String c s' =>
      match digit c with
      | Some d => digits s' (10 * acc + d) (count + 1)
      | None => (acc, count, s)
      end
  | EmptyString => (acc, count, s)
  end.

Definition sign (s : string) : bool * string :=
  match s with
  | String "-" s' => (true, s')
  | String "+" s' => (false, s')
  | _ => (false, s)
  end.

Definition signed (negative : bool) (n : Z) : Z :=
  if negative then - n else n.

(** The exponent part, when one is spelled out in full; a lone [e] is not
    consumed and is left in front of the remaining text. *)
Definition exponent (s : string) : Z * string :=
  match s with
  | String c s' =>
      if (Ascii.eqb c "e" || Ascii.eqb c "E")%bool then
        let '(neg, s1) := sign s' in
        let '(n, count, s2) := digits s1 0 0 in
        if count =? 0 then (0, s) else (signed neg n, s2)
      else (0, s)
  | EmptyString => (0, s)
  end.

(** The C parser skips blanks around the literal. *)
Fixpoint skip_blanks (s : string) : string :=
  match s with
  | String c s' => if Ascii.is_space c then skip_blanks s' else s
  | EmptyString => EmptyString
  end.

Definition literal (s : string) : option (Z * Z) :=
  let '(neg, s1) := sign (skip_blanks s) in
  let '(ip, ni, s2) := digits s1 0 0 in
  let '(m, nf, s3) :=
    match s2 with
    | String "." s' => digits s' ip 0
    | _ => (ip, 0, s2)
    end in
  if ni + nf =? 0 then None
  else
    let '(e, s4) := exponent s3 in
    match skip_blanks s4 with
    | EmptyString => Some (signed neg m, e - nf)
    | _ => None
    end.

Definition infinity (s : string) : option bool :=
  let l := Py.lower s in
  if (String.eqb l "inf" || String.eqb l "+inf"
      || String.eqb l "infinity" || String.eqb l "+infinity")%bool
  then Some false
  else if (String.eqb l "-inf" || String.eqb l "-infinity")%bool
  then Some true
  else None.

(** One cell of [pd.to_numeric(..., errors="coerce")]. *)
Definition to_numeric (s : string) : numeric :=
  match literal s with
  | Some (m, e) => Dec m e
  | None =>
      match infinity s with
      | Some negative => Inf negative
      | None => NaN
      end
  end.

(** [.fillna(0)] on one cell. *)
Definition fillna0 (x : numeric) : numeric :=
  match x with
  | NaN => Dec 0 0
  | _ => x
  end.

(** The integer part of a decimal, fraction dropped (rounding towards
    zero, as a C cast does). *)
Definition trunc (m e : Z) : Z :=
  if 0 <=? e then m * 10 ^ e else Z.quot m (10 ^ (- e)).

(** [.astype(int)] on one cell: a float column refuses NaN and
    infinities. *)
Definition astype_int (x : numeric) : result Z :=
  match x with
  | Dec m e => Ok (trunc m e)
  | NaN | Inf _ => Raise IntCastingNaNError
  end.

(** [.clip(lower=0)] on one cell. *)
Definition clip_lower0 (n : Z) : Z := Z.max 0 n.

(** [pd.to_numeric(cell, errors="coerce").fillna(0).astype(int).clip(lower=0)]
    on one cell. *)
Definition coerce (s : string) : result Z :=
  n ← astype_int (fillna0 (to_numeric s));
  Ok (clip_lower0 n).

End Numeric.

(** ** Data frames

    The frame read from the workbook: its column labels and its rows, every
    cell a string ([dtype=str], blanks filled with the empty string). *)

Record DataFrame : Type := {
  columns : list string;
  rows : list (list string)
}.

(** Positions of the columns that carry [label]. *)
Fixpoint label_positions (label : string) (cols : list string) (i : nat) : list nat :=
  match cols with
  | [] => []
  | c :: cols' =>
      if decide (c = label) then i :: label_positions label cols' (S i)
      else label_positions label cols' (S i)
  end.

Definition cell (i : nat) (row : list string) : string := nth i row "".

(** [df[label]] where a Series is needed: with one column of that label it
    is that column; with several, pandas hands back a frame and the Series
    method called on it raises [on_frame]. *)
Definition getitem (df : DataFrame) (label : string) (on_frame : exn) : result nat :=
  match label_positions label (columns df) 0 with
  | [i] => Ok i
  | [] => Raise (KeyError label)
  | _ => Raise on_frame
  end.

(** ** Schema normaliser *)

Definition column_aliases : list (string * string) :=
  [ ("name", "name");
    ("customer", "name");
    ("carry out", "carry_out");
    ("carryout", "carry_out");
    ("carry-out", "carry_out");
    ("dine in", "dine_in");
    ("dine-in", "dine_in");
    ("dinein", "dine_in") ].

Definition canonical_fields : list string := ["name"; "carry_out"; "dine_in"].

(** [{col.strip().lower(): col for col in dataframe.columns}]: a later
    column replaces an earlier one with the same key. *)
Definition header_lookup (cols : list string) : gmap string string :=
  foldl (fun m col => <[Py.lower (Py.strip col) := col]> m) ∅ cols.

Definition rename_step (lookup : gmap string string)
    (rename_map : gmap string string) (entry : string * string) : gmap string string :=
  let '(alias, normalized_name) := entry in
  match lookup !! alias with
  | Some col =>
      match rename_map !! normalized_name with
      | None => <[normalized_name := col]> rename_map
      | Some _ => rename_map
      end
  | None => rename_map
  end.

Definition build_rename_map (lookup : gmap string string) : gmap string string :=
  foldl (rename_step lookup) ∅ column_aliases.

Definition missing_fields (rename_map : gmap string string) : list string :=
  filter (fun field => rename_map !! field = None) canonical_fields.

(** [{rename_map[key]: key for key in rename_map}]; the keys of
    [rename_map] were inserted in the order of [canonical_fields]. *)
Definition renames (rename_map : gmap string string) : gmap string string :=
  foldl (fun m key =>
           match rename_map !! key with
           | Some col => <[col := key]> m
           | None => m
           end) ∅ canonical_fields.

(** [dataframe.rename(columns=mapping)] *)
Definition rename (df : DataFrame) (mapping : gmap string string) : DataFrame :=
  {| columns := map (fun c => default c (mapping !! c)) (columns df);
     rows := rows df |}.

Definition missing_message (missing : list string) : string :=
  "Missing required columns: " +:+ Py.join ", " missing.

Definition _normalize_orders_dataframe (dataframe : DataFrame) : result DataFrame :=
  let lookup := header_lookup (columns dataframe) in
  let rename_map := build_rename_map lookup in
  let missing := missing_fields rename_map in
  match missing with
  | _ :: _ => Raise (ValueError (missing_message missing))
  | [] => Ok (rename dataframe (renames rename_map))
  end.

(** ** Order aggregator *)

Record AggregatedOrder : Type := {
  order_name : string;
  carry_out : Z;
  dine_in : Z
}.

(** One step of [groupby("name").agg(sum).sort_values("name")]: the groups
    are kept ascending by name, a row joins the group of its name or opens
    a new one in place. *)
Fixpoint add_to_group (n : string) (c d : Z) (groups : list AggregatedOrder)
    : list AggregatedOrder :=
  match groups with
  | [] => [ {| order_name := n; carry_out := c; dine_in := d |} ]
  | g :: groups' =>
      match String.compare n (order_name g) with
      | Eq => {| order_name := n; carry_out := carry_out g + c;
                 dine_in := dine_in g + d |} :: groups'
      | Lt => {| order_name := n; carry_out := c; dine_in := d |} :: groups
      | Gt => g :: add_to_group n c d groups'
      end
  end.

Definition groupby_sum (records : list (string * Z * Z)) : list AggregatedOrder :=
  foldl (fun groups '(n, c, d) => add_to_group n c d groups) [] records.

Fixpoint zip3 (names : list string) (cs ds : list Z) : list (string * Z * Z) :=
  match names, cs, ds with
  | n :: names', c :: cs', d :: ds' => (n, c, d) :: zip3 names' cs' ds'
  | _, _, _ => []
  end.

(** The three canonical cells of one row, as the renamed frame holds them. *)
Record CanonicalOrderRow : Type := {
  row_name : string;
  row_carry_out : string;
  row_dine_in : string
}.

(** Lines 220-234 of [_prepare_label_cards] on the canonical rows: names are
    trimmed and blank ones dropped, then the carry-out column is coerced,
    then the dine-in column, then the rows are grouped and summed. *)
Definition aggregate_orders (records : list CanonicalOrderRow)
    : result (list AggregatedOrder) :=
  let kept :=
    filter (fun r => Py.strip (row_name r) ≠ "") records in
  carry ← traverse Numeric.coerce (map row_carry_out kept);
  dine ← traverse Numeric.coerce (map row_dine_in kept);
  Ok (groupby_sum (zip3 (map (fun r => Py.strip (row_name r)) kept) carry dine)).

(** ** Label card sequencer *)

Record LabelCard : Type := {
  name : string;
  count : option Z;
  doubles : option Z;
  singles : option Z
}.

Definition _required_label_count (carry_out_total : Z) : Z :=
  if carry_out_total <=? 0 then 0
  else
    let quotient := carry_out_total / 2 in
    let remainder := carry_out_total mod 2 in
    quotient + remainder.

Definition primary_card (n : string) (carry_count : Z) : LabelCard :=
  {| name := n; count := Some carry_count; doubles := None; singles := None |}.

Definition continuation_card (n : string) : LabelCard :=
  {| name := n; count := None; doubles := None; singles := None |}.

Definition pack_summary_card (d s : Z) : LabelCard :=
  {| name := "Pack Summary"; count := None; doubles := Some d; singles := Some s |}.

(** The state of the loop of lines 236-252. *)
Record Sequencer : Type := {
  label_cards : list LabelCard;
  total_doubles : Z;
  total_singles : Z
}.

Definition sequencer_step (st : Sequencer) (row : AggregatedOrder) : Sequencer :=
  let carry_count := carry_out row in
  if carry_count <=? 0 then st
  else
    let d := carry_count / 2 in
    let s := carry_count mod 2 in
    let total_labels := _required_label_count carry_count in
    {| label_cards :=
         (label_cards st ++ [primary_card (order_name row) carry_count])
         ++ replicate (Z.to_nat (total_labels - 1)) (continuation_card (order_name row));
       total_doubles := total_doubles st + d;
       total_singles := total_singles st + s |}.

Definition sequencer_loop (aggregated : list AggregatedOrder) : Sequencer :=
  foldl sequencer_step
    {| label_cards := []; total_doubles := 0; total_singles := 0 |} aggregated.

(** Lines 236-262: the cards of every name, then the pack summary. *)
Definition sequence_label_cards (aggregated : list AggregatedOrder) : list LabelCard :=
  let st := sequencer_loop aggregated in
  if (negb (total_doubles st =? 0) || negb (total_singles st =? 0))%bool
  then label_cards st ++ [pack_summary_card (total_doubles st) (total_singles st)]
  else label_cards st.

(** Lines 264-268. *)
Definition dine_summary (aggregated : list AggregatedOrder) : list (string * Z) :=
  map (fun row => (order_name row, dine_in row))
      (filter (fun row => 0 < dine_in row) aggregated).

Definition _prepare_label_cards (dataframe : DataFrame)
    : result (list LabelCard * list (string * Z)) :=
  normalized ← _normalize_orders_dataframe dataframe;
  name_col ← getitem normalized "name" AttributeError;
  let kept :=
    filter (fun r => Py.strip (cell name_col r) ≠ "") (rows normalized) in
  carry_col ← getitem normalized "carry_out" TypeError;
  carry ← traverse Numeric.coerce (map (cell carry_col) kept);
  dine_col ← getitem normalized "dine_in" TypeError;
  dine ← traverse Numeric.coerce (map (cell dine_col) kept);
  let aggregated :=
    groupby_sum (zip3 (map (fun r => Py.strip (cell name_col r)) kept) carry dine) in
  Ok (sequence_label_cards aggregated, dine_summary aggregated).

(** The canonical rows of a frame whose three canonical columns sit at the
    given positions. *)
Definition canonical_rows (df : DataFrame) (name_col carry_col dine_col : nat)
    : list CanonicalOrderRow :=
  map (fun r => {| row_name := cell name_col r;
                   row_carry_out := cell carry_col r;
                   row_dine_in := cell dine_col r |}) (rows df).

(** ** Page geometry *)

Module Layout.
Local Open Scope Q_scope.

Definition inch : Q := 72.
Definition letter : Q * Q := (612, 792).

Definition LABEL_COLUMNS : Z := 3%Z.
Definition LABEL_ROWS : Z := 10%Z.
Definition LABEL_WIDTH : Q := 2.625 * inch.
Definition LABEL_HEIGHT : Q := 1.0 * inch.
Definition HORIZONTAL_GAP : Q := 0.1 * inch.
Definition VERTICAL_GAP : Q := 0 * inch.
Definition PAGE_MARGIN_X : Q := 0.2 * inch.
Definition PAGE_MARGIN_Y : Q := 0.4 * inch.
Definition TITLE_FONT : string := "Helvetica-Bold".
Definition BODY_FONT : string := "Helvetica".
Definition TITLE_FONT_SIZE : Z := 12%Z.
Definition BODY_FONT_SIZE : Z := 10%Z.
Definition COUNT_FONT_SIZE : Z := 12%Z.
Definition CONTENT_PADDING : Q := 0.2 * inch.
Definition SUMMARY_TITLE_FONT_SIZE : Z := 18%Z.
Definition SUMMARY_BODY_FONT_SIZE : Z := 11%Z.

(** Lines 113-114: where the cell of a column and row starts. *)
Definition label_origin_x (column_index : Z) : Q :=
  PAGE_MARGIN_X + inject_Z column_index * (LABEL_WIDTH + HORIZONTAL_GAP).

Definition label_top (page_height : Q) (row_index : Z) : Q :=
  page_height - PAGE_MARGIN_Y - inject_Z row_index * (LABEL_HEIGHT + VERTICAL_GAP).

End Layout.

(** ** The drawing surface *)

(** The primitives of the canvas the engine uses, each with the font set
    for it.  A table is drawn with its lower left corner at
    [start_y - table_height]; it is recorded by its top edge, [start_y]. *)
Inductive PrimOp : Type :=
  | DrawString (font : string) (size : Z) (x y : Q) (text : string)
  | DrawCentredString (font : string) (size : Z) (x y : Q) (text : string)
  | DrawTable (data : list (list string)) (colWidths : list Q) (x top : Q).

(** [card.doubles or 0] *)
Definition or0 (v : option Z) : Z := default 0 v.

Definition draw_label_card (label_top label_left : Q) (card : LabelCard) : list PrimOp :=
  let label_bottom := (label_top - Layout.LABEL_HEIGHT)%Q in
  let center_x := (label_left + Layout.LABEL_WIDTH / 2)%Q in
  if (bool_decide (doubles card ≠ None) || bool_decide (singles card ≠ None))%bool then
    let title_baseline :=
      (label_top - Layout.CONTENT_PADDING - inject_Z Layout.TITLE_FONT_SIZE * 0.6)%Q in
    let doubles_y := (title_baseline - inject_Z Layout.BODY_FONT_SIZE - 6)%Q in
    let singles_y := (doubles_y - inject_Z Layout.BODY_FONT_SIZE - 4)%Q in
    [ DrawCentredString Layout.TITLE_FONT Layout.TITLE_FONT_SIZE
        center_x title_baseline (name card);
      DrawCentredString Layout.BODY_FONT Layout.BODY_FONT_SIZE
        center_x doubles_y ("Doubles: " +:+ Py.str (or0 (doubles card)));
      DrawCentredString Layout.BODY_FONT Layout.BODY_FONT_SIZE
        center_x singles_y ("Singles: " +:+ Py.str (or0 (singles card))) ]
  else
    let name_y :=
      match count card with
      | None =>
          (label_bottom + Layout.LABEL_HEIGHT / 2 - inject_Z Layout.TITLE_FONT_SIZE / 2)%Q
      | Some _ =>
          (label_top - Layout.CONTENT_PADDING - inject_Z Layout.TITLE_FONT_SIZE)%Q
      end in
    DrawCentredString Layout.TITLE_FONT Layout.TITLE_FONT_SIZE center_x name_y (name card)
    :: match count card with
       | Some n =>
           let count_y :=
             (label_bottom + Layout.LABEL_HEIGHT / 2
              - inject_Z Layout.COUNT_FONT_SIZE * 0.5)%Q in
           [ DrawCentredString Layout.TITLE_FONT Layout.COUNT_FONT_SIZE
               center_x count_y (Py.str n) ]
       | None => []
       end.

Definition draw_dine_in_summary (summary : list (string * Z))
    (page_width page_height : Q) : list PrimOp :=
  let margin_x := Layout.PAGE_MARGIN_X in
  let margin_y := Layout.PAGE_MARGIN_Y in
  let start_y :=
    (page_height - margin_y - inject_Z (Layout.SUMMARY_TITLE_FONT_SIZE + 12))%Q in
  DrawString Layout.TITLE_FONT Layout.SUMMARY_TITLE_FONT_SIZE
    margin_x (page_height - margin_y)%Q "Dine-In Summary"
  :: match summary with
     | [] =>
         [ DrawString Layout.BODY_FONT Layout.SUMMARY_BODY_FONT_SIZE
             margin_x start_y "No dine-in orders." ]
     | _ :: _ =>
         let data :=
           ["Name"; "Number"] :: map (fun '(n, c) => [n; Py.str c]) summary in
         let available_width := (page_width - 2 * margin_x)%Q in
         [ DrawTable data [ (available_width * 0.7)%Q; (available_width * 0.3)%Q ]
             margin_x start_y ]
     end.

(** What a page holds: the calls of the two drawing functions made on it,
    with their arguments. *)
Inductive Drawing : Type :=
  | LabelCell (label_top label_left : Q) (card : LabelCard)
  | DineInSummary (summary : list (string * Z)) (page_width page_height : Q).

Definition primitives (d : Drawing) : list PrimOp :=
  match d with
  | LabelCell label_top label_left card => draw_label_card label_top label_left card
  | DineInSummary summary w h => draw_dine_in_summary summary w h
  end.

Definition Page : Type := list Drawing.

(** The canvas: the pages already closed and the page being drawn. *)
Record Canvas : Type := {
  pages : list Page;
  current : Page
}.

Definition new_canvas : Canvas := {| pages := []; current := [] |}.

Definition draw (pdf : Canvas) (d : Drawing) : Canvas :=
  {| pages := pages pdf; current := current pdf ++ [d] |}.

(** [pdf.showPage()] closes the current page and starts an empty one. *)
Definition showPage (pdf : Canvas) : Canvas :=
  {| pages := pages pdf ++ [current pdf]; current := [] |}.

(** [pdf.save()] closes the page being drawn when something is on it. *)
Definition save (pdf : Canvas) : list Page :=
  match current pdf with
  | [] => pages pdf
  | _ :: _ => pages (showPage pdf)
  end.

(** ** Document assembly *)

Definition labels_per_page : Z := Layout.LABEL_COLUMNS * Layout.LABEL_ROWS.

(** [enumerate(cards)] from a starting index. *)
Fixpoint enumerate_from {A} (i : Z) (l : list A) : list (Z * A) :=
  match l with
  | [] => []
  | a :: l' => (i, a) :: enumerate_from (i + 1) l'
  end.

Definition enumerate {A} (l : list A) : list (Z * A) := enumerate_from 0 l.

(** The body of the loop of lines 105-117, on the canvas and the flag
    [labels_drawn]. *)
Definition label_step (page_height : Q) (st : Canvas * bool) (item : Z * LabelCard)
    : Canvas * bool :=
  let '(pdf, _) := st in
  let '(label_index, card) := item in
  let position := label_index mod labels_per_page in
  let column_index := position mod Layout.LABEL_COLUMNS in
  let row_index := position / Layout.LABEL_COLUMNS in
  let pdf :=
    if (negb (label_index =? 0) && (position =? 0))%bool then showPage pdf else pdf in
  let label_origin_x := Layout.label_origin_x column_index in
  let label_top := Layout.label_top page_height row_index in
  (draw pdf (LabelCell label_top label_origin_x card), true).

(** Lines 102-123 of [build_labels_pdf], once the cards and the summary are
    prepared. *)
Definition assemble (cards : list LabelCard) (summary : list (string * Z)) : list Page :=
  let '(page_width, page_height) := Layout.letter in
  let '(pdf, labels_drawn) :=
    foldl (label_step page_height) (new_canvas, false) (enumerate cards) in
  let pdf := if labels_drawn then showPage pdf else pdf in
  let pdf := draw pdf (DineInSummary summary page_width page_height) in
  save pdf.

Definition build_labels_pdf (dataframe : DataFrame) : result (list Page) :=
  '(cards, summary) ← _prepare_label_cards dataframe;
  Ok (assemble cards summary).

(** ** Upload route *)

Definition ALLOWED_EXTENSIONS : gset string := {[ "xls"; "xlsx" ]}.
Definition DEFAULT_DOWNLOAD_NAME : string := "labels.pdf".

(** The last occurrence of [sep] in [s], if any: what precedes it and what
    follows it. *)
Fixpoint rsplit_once (sep : ascii) (s : string) : option (string * string) :=
  match s with
  | EmptyString => None
  | String c s' =>
      match rsplit_once sep s' with
      | Some (before, after) => Some (String c before, after)
      | None => if Ascii.eqb c sep then Some (EmptyString, s') else None
      end
  end.

(** [s.rpartition(sep)] for a separator of one character. *)
Definition rpartition (sep : ascii) (s : string) : string * string * string :=
  match rsplit_once sep s with
  | Some (before, after) => (before, String sep EmptyString, after)
  | None => ("", "", s)
  end.

Definition allowed_file (filename : string) : bool :=
  let '(_, dot, extension) := rpartition "." filename in
  negb (String.eqb dot "") && bool_decide (Py.lower extension ∈ ALLOWED_EXTENSIONS).

(** An uploaded file: its name, and what
    [pd.read_excel(upload, dtype=str).fillna("")] makes of its bytes. *)
Record Upload : Type := {
  filename : string;
  read_excel : result DataFrame
}.

Record Request : Type := {
  method : string;
  data_file : option Upload
}.

(** What the route answers: the upload page, a redirect to it after one
    flashed error (the text, and the exception whose text is appended to
    it), or the document as a download. *)
Inductive Response : Type :=
  | render_template (template : string)
  | flash_and_redirect (message : string) (exc : option exn) (category : string)
  | send_file (document : list Page) (mimetype : string) (download_name : string).

(** [dataframe.empty]: no column or no row. *)
Definition empty (df : DataFrame) : bool :=
  match columns df, rows df with
  | _ :: _, _ :: _ => false
  | _, _ => true
  end.

Definition index (request : Request) : Response :=
  if String.eqb (method request) "POST" then
    match data_file request with
    | None =>
        flash_and_redirect "Please choose an Excel file before uploading." None "error"
    | Some upload =>
        if String.eqb (filename upload) "" then
          flash_and_redirect "Please choose an Excel file before uploading." None "error"
        else if negb (allowed_file (filename upload)) then
          flash_and_redirect "File type not supported. Upload an .xls or .xlsx file."
            None "error"
        else
          match read_excel upload with
          | Raise exc =>
              flash_and_redirect "Could not read Excel file: " (Some exc) "error"
          | Ok dataframe =>
              if empty dataframe then
                flash_and_redirect
                  "The uploaded workbook does not contain any rows to print."
                  None "error"
              else
                match build_labels_pdf dataframe with
                | Raise exc =>
                    flash_and_redirect "Failed to generate PDF: " (Some exc) "error"
                | Ok pdf_buffer =>
                    send_file pdf_buffer "application/pdf" DEFAULT_DOWNLOAD_NAME
                end
          end
    end
  else render_template "upload.html".

(** ** The design document's vocabulary

    Definitions that follow the words of the design document, to be
    compared with the code above. *)

Definition sumZ (l : list Z) : Z := foldr Z.add 0 l.

(** [ceil(carry_out / 2)] *)
Definition spec_required_labels (carry_out_total : Z) : Z :=
  Qceiling (inject_Z carry_out_total / 2).

(** The cards of one aggregated order: one primary carry card, then
    [required_labels - 1] continuation cards; none without carry-out. *)
Definition spec_cards_for (row : AggregatedOrder) : list LabelCard :=
  if 0 <? carry_out row then
    primary_card (order_name row) (carry_out row)
    :: replicate (Z.to_nat (spec_required_labels (carry_out row) - 1))
         (continuation_card (order_name row))
  else [].

(** What one order adds to the running totals. *)
Definition packed_doubles (row : AggregatedOrder) : Z :=
  if 0 <? carry_out row then carry_out row / 2 else 0.

Definition packed_singles (row : AggregatedOrder) : Z :=
  if 0 <? carry_out row then carry_out row mod 2 else 0.

(** A pack-summary card is told from the others as [draw_label_card] tells
    it: one of its two totals is set. *)
Definition is_pack_summary (card : LabelCard) : Prop :=
  doubles card ≠ None ∨ singles card ≠ None.

#[global] Instance is_pack_summary_dec card : Decision (is_pack_summary card).
Proof. unfold is_pack_summary. apply _. Defined.

(** The key under which [header_lookup] files a header. *)
Definition header_key (col : string) : string := Py.lower (Py.strip col).

(** A header spells an alias of a canonical field once trimmed and
    lowercased. *)
Definition spells_alias (field header : string) : Prop :=
  (Py.lower (Py.strip header), field) ∈ column_aliases.

(** Some input header spells an alias of the field. *)
Definition has_alias (headers : list string) (field : string) : Prop :=
  Exists (spells_alias field) headers.

#[global] Instance has_alias_dec headers field : Decision (has_alias headers field).
Proof. unfold has_alias, spells_alias. apply _. Defined.

(** A string with every whitespace character removed. *)
Fixpoint remove_whitespace (s : string) : string :=
  match s with
  | String c s' =>
      if Py.isspace c then remove_whitespace s' else String c (remove_whitespace s')
  | EmptyString => EmptyString
  end.

(** Two spellings are the same when differences of letter case and of
    whitespace are disregarded. *)
Definition same_spelling (a b : string) : Prop :=
  remove_whitespace (Py.lower a) = remove_whitespace (Py.lower b).

(** The number a cell contributes once coerced (0 where coercion raises). *)
Definition cell_value (s : string) : Z :=
  match Numeric.coerce s with
  | Ok n => n
  | Raise _ => 0
  end.

(** Strictly ascending by name under ordinal comparison. *)
Definition name_lt (a b : AggregatedOrder) : Prop :=
  String.compare (order_name a) (order_name b) = Lt.

Definition entry_lt (a b : string * Z) : Prop :=
  String.compare a.1 b.1 = Lt.

(** The canvas once the first [k] cards have gone through the layout loop. *)
Definition canvas_after (page_height : Q) (cards : list LabelCard) (k : nat) : Canvas :=
  (foldl (label_step page_height) (new_canvas, false) (enumerate (take k cards))).1.

Definition is_label_cell (d : Drawing) : Prop :=
  match d with
  | LabelCell _ _ _ => True
  | DineInSummary _ _ _ => False
  end.

Definition card_of (d : Drawing) : option LabelCard :=
  match d with
  | LabelCell _ _ card => Some card
  | DineInSummary _ _ _ => None
  end.

(** ** Auxiliary notions for the proofs *)

(** The total a list of groups holds for a name, in one of its columns. *)
Definition total_of (f : AggregatedOrder -> Z) (n : string)
    (groups : list AggregatedOrder) : Z :=
  sumZ (map f (filter (fun g => order_name g = n) groups)).

Definition group_step (groups : list AggregatedOrder) (record : string * Z * Z)
    : list AggregatedOrder :=
  let '(n, c, d) := record in add_to_group n c d groups.

(** A canonical row once its name is trimmed and its two counts coerced. *)
Definition coerced_record (r : CanonicalOrderRow) : string * Z * Z :=
  (Py.strip (row_name r), cell_value (row_carry_out r), cell_value (row_dine_in r)).

Definition named (r : CanonicalOrderRow) : Prop := Py.strip (row_name r) ≠ "".

(** The drawing of the card at index [i], as the design document places
    it. *)
Definition layout_cell (page_height : Q) (i : Z) (card : LabelCard) : Drawing :=
  let position := i mod 30 in
  LabelCell (Layout.label_top page_height (position / 3))
            (Layout.label_origin_x (position mod 3)) card.

(** The loop state once the first [k] cards have gone through it. *)
Definition loop_after (page_height : Q) (cards : list LabelCard) (k : nat)
    : Canvas * bool :=
  foldl (label_step page_height) (new_canvas, false) (enumerate (take k cards)).

Definition cells_of (page_height : Q) (items : list (Z * LabelCard)) : list Drawing :=
  map (fun item => layout_cell page_height item.1 item.2) items.

(** The invariant of the layout loop: the closed pages are full, the open
    page holds between 1 and 30 cells once a card is drawn, and the pages
    read in order are the cells of the cards drawn so far. *)
Definition layout_invariant (h : Q) (cards : list LabelCard) (k : nat) (pdf : Canvas)
    : Prop :=
  Forall (fun pg => length pg = 30%nat) (pages pdf)
  /\ concat (pages pdf ++ [current pdf]) = cells_of h (enumerate (take k cards))
  /\ (k = 0%nat -> pdf = new_canvas)
  /\ ((0 < k)%nat -> (1 <= length (current pdf) <= 30)%nat).

(** The label pages of a document: the closed pages and the page that was
    open when the last card was drawn, if a card was drawn. *)
Definition label_pages (cards : list LabelCard) : list Page :=
  let pdf := canvas_after 792 cards (length cards) in
  match cards with
  | [] => []
  | _ :: _ => pages pdf ++ [current pdf]
  end.

(** Whether a character occurs in a string. *)
Fixpoint occurs (c : ascii) (s : string) : bool :=
  match s with
  | EmptyString => false
  | String c' s' => Ascii.eqb c' c || occurs c s'
  end.

(** The header [h] is the only one of [headers] that spells an alias of
    [field]. *)
Definition taken_once (headers : list string) (field h : string) : Prop :=
  h ∈ headers /\ spells_alias field h
  /\ Forall (fun h' => spells_alias field h' -> h' = h) headers.

#[global] Instance taken_once_dec headers field h : Decision (taken_once headers field h).
Proof. unfold taken_once, spells_alias. apply _. Defined.

(** The label a column gets from [rename]. *)
Definition relabel (mapping : gmap string string) (c : string) : string :=
  default c (mapping !! c).

(** One step of the dictionary built for [rename]. *)
Definition renames_step (rename_map m : gmap string string) (key : string)
    : gmap string string :=
  match rename_map !! key with
  | Some col => <[col := key]> m
  | None => m
  end.

(** A text primitive drawn for the cell with top edge [label_top] and left
    edge [label_left]: centred on the middle of the cell, its baseline
    strictly between the bottom and the top edge. *)
Definition text_in_cell (label_top label_left : Q) (op : PrimOp) : Prop :=
  match op with
  | DrawCentredString _ _ x y _ =>
      (x == label_left + Layout.LABEL_WIDTH / 2
       /\ label_top - Layout.LABEL_HEIGHT < y /\ y < label_top)%Q
  | _ => False
  end.

(** One card is not after another in the order of names. *)
Definition card_le (a b : LabelCard) : Prop :=
  String.compare (name a) (name b) ≠ Gt.

(** * Properties *)

(** ** Worked examples *)

Example strip_ex : Py.strip "  Alice Smith " = "Alice Smith".
Proof. reflexivity. Qed.

Example lower_ex : Py.lower " Carry-OUT" = " carry-out".
Proof. reflexivity. Qed.

Example str_ex : Py.str 120 = "120".
Proof. reflexivity. Qed.

Example coerce_exponent : Numeric.coerce " 1.5e2 " = Ok 150.
Proof. reflexivity. Qed.

Example coerce_words : Numeric.coerce "two" = Ok 0.
Proof. reflexivity. Qed.

Example coerce_negative : Numeric.coerce "-7" = Ok 0.
Proof. reflexivity. Qed.

Example coerce_lone_exponent : Numeric.coerce "1e" = Ok 0.
Proof. reflexivity. Qed.

(** ** Results *)

Lemma traverse_Ok {A B} (f : A -> result B) (l : list A) (bs : list B) :
  traverse f l = Ok bs -> Forall2 (fun a b => f a = Ok b) l bs.
Proof.
  revert bs. induction l as [|a l IH]; intros bs H; simpl in H.
  - injection H as <-. constructor.
  - destruct (f a) as [e|b] eqn:Hb; simpl in H; [discriminate|].
    destruct (traverse f l) as [e|bs'] eqn:Hl; simpl in H; [discriminate|].
    injection H as <-. constructor; auto.
Qed.

Lemma traverse_total {A B} (f : A -> result B) (l : list A) :
  Forall (fun a => exists b, f a = Ok b) l -> exists bs, traverse f l = Ok bs.
Proof.
  induction 1 as [|a l [b Hb] _ [bs Hbs]]; simpl.
  - eauto.
  - rewrite Hb, Hbs. simpl. eauto.
Qed.

Lemma traverse_raises {A B} (f : A -> result B) (l : list A) e :
  traverse f l = Raise e -> Exists (fun a => f a = Raise e) l.
Proof.
  induction l as [|a l IH]; simpl; [discriminate|].
  destruct (f a) as [e'|b] eqn:Hb; simpl.
  - intros [= <-]. by left.
  - destruct (traverse f l) as [e'|bs]; simpl; [|discriminate].
    intros [= <-]. right. auto.
Qed.

(** ** Lists *)

Lemma filter_none {A} (P : A -> Prop) `{!forall x, Decision (P x)} (l : list A) :
  Forall (fun x => ¬ P x) l -> filter P l = [].
Proof.
  induction 1 as [|x l Hx _ IH]; [reflexivity|].
  by rewrite filter_cons_False.
Qed.

Lemma Forall_concat_elem {A} (P : A -> Prop) (ls : list (list A)) (l : list A) :
  Forall P (concat ls) -> l ∈ ls -> Forall P l.
Proof.
  induction ls as [|l' ls IH]; simpl; [by intros _ ?%elem_of_nil|].
  intros [Hl' Hls]%Forall_app [->|Hin]%elem_of_cons; auto.
Qed.

(** ** Numeric coercion *)

Lemma coerce_cases (s : string) :
  match Numeric.to_numeric s with
  | NaN => Numeric.coerce s = Ok 0
  | Dec m e => Numeric.coerce s = Ok (Z.max 0 (Numeric.trunc m e))
  | Inf _ => Numeric.coerce s = Raise IntCastingNaNError
  end.
Proof. unfold Numeric.coerce. destruct (Numeric.to_numeric s); reflexivity. Qed.


Lemma coerce_raises_inf (s : string) e :
  Numeric.coerce s = Raise e ->
  e = IntCastingNaNError /\ exists negative, Numeric.to_numeric s = Inf negative.
Proof.
  pose proof (coerce_cases s) as H.
  destruct (Numeric.to_numeric s); rewrite H; intros [= <-]; eauto.
Qed.




(** ** Label card sequencer *)

Lemma spec_required_labels_eq (c : Z) : spec_required_labels c = (c + 1) / 2.
Proof.
  unfold spec_required_labels, Qceiling, Qfloor, Qdiv, Qmult, Qinv, Qopp, inject_Z.
  simpl. rewrite Z.mul_1_r.
  change (Z.pos (1 * 2)) with 2.
  pose proof (Z.div_mod (- c) 2 ltac:(lia)) as H1.
  pose proof (Z.mod_pos_bound (- c) 2 ltac:(lia)) as H2.
  pose proof (Z.div_mod (c + 1) 2 ltac:(lia)) as H3.
  pose proof (Z.mod_pos_bound (c + 1) 2 ltac:(lia)) as H4.
  lia.
Qed.

(** [spec_required_labels c] is the least number of pairs that cover [c]
    units. *)
Lemma spec_required_labels_least (c : Z) :
  c <= 2 * spec_required_labels c /\ 2 * (spec_required_labels c - 1) < c.
Proof.
  rewrite spec_required_labels_eq.
  pose proof (Z.div_mod (c + 1) 2 ltac:(lia)) as H3.
  pose proof (Z.mod_pos_bound (c + 1) 2 ltac:(lia)) as H4.
  lia.
Qed.

Lemma required_label_count_ceil (c : Z) :
  _required_label_count c = Z.max 0 (spec_required_labels c).
Proof.
  rewrite spec_required_labels_eq. unfold _required_label_count.
  pose proof (Z.div_mod (c + 1) 2 ltac:(lia)) as H3.
  pose proof (Z.mod_pos_bound (c + 1) 2 ltac:(lia)) as H4.
  pose proof (Z.div_mod c 2 ltac:(lia)) as H5.
  pose proof (Z.mod_pos_bound c 2 ltac:(lia)) as H6.
  destruct (Z.leb_spec c 0); lia.
Qed.

Lemma required_label_count_pos (c : Z) :
  0 < c -> _required_label_count c = spec_required_labels c /\ 1 <= spec_required_labels c.
Proof.
  intros Hc. rewrite required_label_count_ceil.
  pose proof (spec_required_labels_least c). lia.
Qed.

Lemma sequencer_step_spec (st : Sequencer) (row : AggregatedOrder) :
  sequencer_step st row =
  {| label_cards := label_cards st ++ spec_cards_for row;
     total_doubles := total_doubles st + packed_doubles row;
     total_singles := total_singles st + packed_singles row |}.
Proof.
  unfold sequencer_step, spec_cards_for, packed_doubles, packed_singles.
  destruct (Z.leb_spec (carry_out row) 0) as [Hle|Hlt];
    destruct (Z.ltb_spec 0 (carry_out row)) as [Hpos|Hnp]; try lia.
  - destruct st; simpl. rewrite app_nil_r, !Z.add_0_r. reflexivity.
  - destruct (required_label_count_pos _ Hpos) as [-> _].
    simpl. rewrite <- app_assoc. reflexivity.
Qed.

Lemma sequencer_loop_from (st : Sequencer) (l : list AggregatedOrder) :
  foldl sequencer_step st l =
  {| label_cards := label_cards st ++ flat_map spec_cards_for l;
     total_doubles := total_doubles st + sumZ (map packed_doubles l);
     total_singles := total_singles st + sumZ (map packed_singles l) |}.
Proof.
  revert st. induction l as [|row l IH]; intros st; simpl.
  - destruct st; simpl. rewrite app_nil_r, !Z.add_0_r. reflexivity.
  - rewrite IH, sequencer_step_spec. simpl.
    rewrite <- app_assoc, <- !Z.add_assoc. reflexivity.
Qed.

Lemma sequencer_loop_spec (l : list AggregatedOrder) :
  sequencer_loop l =
  {| label_cards := flat_map spec_cards_for l;
     total_doubles := sumZ (map packed_doubles l);
     total_singles := sumZ (map packed_singles l) |}.
Proof. unfold sequencer_loop. rewrite sequencer_loop_from. reflexivity. Qed.

Lemma spec_cards_for_length (row : AggregatedOrder) :
  Z.of_nat (length (spec_cards_for row)) = _required_label_count (carry_out row).
Proof.
  unfold spec_cards_for.
  destruct (Z.ltb_spec 0 (carry_out row)) as [Hpos|Hnp].
  - destruct (required_label_count_pos _ Hpos) as [-> Hge].
    simpl. rewrite length_replicate. lia.
  - unfold _required_label_count.
    destruct (Z.leb_spec (carry_out row) 0); [reflexivity|lia].
Qed.



Lemma spec_cards_for_plain (row : AggregatedOrder) :
  Forall (fun card => ¬ is_pack_summary card) (spec_cards_for row).
Proof.
  unfold spec_cards_for. destruct (0 <? carry_out row); [|constructor].
  constructor.
  - unfold is_pack_summary. simpl. tauto.
  - apply Forall_replicate. unfold is_pack_summary. simpl. tauto.
Qed.

Lemma flat_map_cards_plain (l : list AggregatedOrder) :
  Forall (fun card => ¬ is_pack_summary card) (flat_map spec_cards_for l).
Proof.
  induction l as [|row l IH]; simpl; [constructor|].
  apply Forall_app. split; [apply spec_cards_for_plain|exact IH].
Qed.

Lemma sequence_label_cards_spec (l : list AggregatedOrder) :
  sequence_label_cards l =
  flat_map spec_cards_for l
  ++ (if decide (sumZ (map packed_doubles l) = 0 /\ sumZ (map packed_singles l) = 0)
      then []
      else [pack_summary_card (sumZ (map packed_doubles l))
                              (sumZ (map packed_singles l))]).
Proof.
  unfold sequence_label_cards. rewrite sequencer_loop_spec. simpl.
  destruct (Z.eqb_spec (sumZ (map packed_doubles l)) 0) as [Hd|Hd];
    destruct (Z.eqb_spec (sumZ (map packed_singles l)) 0) as [Hs|Hs]; simpl;
    case_decide; try tauto; try reflexivity.
  by rewrite app_nil_r.
Qed.


(** The edge case of the design document: carry-out 1 needs the primary
    card only. *)
Example carry_one :
  sequence_label_cards [ {| order_name := "Ann"; carry_out := 1; dine_in := 0 |} ]
  = [ primary_card "Ann" 1; pack_summary_card 0 1 ].
Proof. reflexivity. Qed.

(** Scenario 2 of the design document: carry-out 5 for Bob. *)
Example bob_five :
  sequence_label_cards [ {| order_name := "Bob"; carry_out := 5; dine_in := 0 |} ]
  = [ primary_card "Bob" 5; continuation_card "Bob"; continuation_card "Bob";
      pack_summary_card 2 1 ].
Proof. reflexivity. Qed.

Lemma packed_row (row : AggregatedOrder) :
  0 <= carry_out row ->
  packed_doubles row = carry_out row / 2
  /\ packed_singles row = carry_out row mod 2
  /\ 0 <= packed_doubles row /\ 0 <= packed_singles row
  /\ packed_doubles row * 2 + packed_singles row = carry_out row.
Proof.
  intros Hrow. unfold packed_doubles, packed_singles.
  pose proof (Z.div_mod (carry_out row) 2 ltac:(lia)) as H5.
  pose proof (Z.mod_pos_bound (carry_out row) 2 ltac:(lia)) as H6.
  destruct (Z.ltb_spec 0 (carry_out row)) as [Hpos|Hnp].
  - lia.
  - assert (carry_out row = 0) as -> by lia.
    change (0 / 2) with 0. change (0 mod 2) with 0. lia.
Qed.

Lemma packed_totals (l : list AggregatedOrder) :
  Forall (fun row => 0 <= carry_out row) l ->
  sumZ (map packed_doubles l) = sumZ (map (fun row => carry_out row / 2) l)
  /\ sumZ (map packed_singles l) = sumZ (map (fun row => carry_out row mod 2) l)
  /\ 0 <= sumZ (map packed_doubles l)
  /\ 0 <= sumZ (map packed_singles l)
  /\ sumZ (map packed_doubles l) * 2 + sumZ (map packed_singles l)
     = sumZ (map carry_out l).
Proof.
  induction 1 as [|row l Hrow _ IH]; simpl; [lia|].
  destruct IH as (IH1 & IH2 & IH3 & IH4 & IH5).
  destruct (packed_row row Hrow) as (R1 & R2 & R3 & R4 & R5).
  rewrite <- IH1, <- IH2, <- R1, <- R2. lia.
Qed.

Lemma no_carry_no_cards (l : list AggregatedOrder) :
  Forall (fun row => 0 <= carry_out row) l ->
  sumZ (map carry_out l) = 0 -> flat_map spec_cards_for l = [].
Proof.
  induction 1 as [|row l Hrow Hl IH]; simpl; [reflexivity|].
  intros Hsum.
  assert (0 <= sumZ (map carry_out l)) as Hnn.
  { clear -Hl. induction Hl; simpl; lia. }
  assert (carry_out row = 0) as H0 by lia.
  unfold spec_cards_for at 1. rewrite H0. simpl. apply IH. lia.
Qed.

(** C2. With [D] the sum of [carry_out div 2] and [S] the sum of
    [carry_out mod 2] over the names, [D * 2 + S] is the sum of the
    carry-outs; when [D] or [S] is not 0 the sequence ends with one card
    named "Pack Summary" holding [D] and [S], and no other card is a pack
    summary; when both are 0 no card is emitted at all. *)
Theorem pack_summary_card_totals (aggregated : list AggregatedOrder) :
  Forall (fun row => 0 <= carry_out row) aggregated ->
  let D := sumZ (map (fun row => carry_out row / 2) aggregated) in
  let S := sumZ (map (fun row => carry_out row mod 2) aggregated) in
  D * 2 + S = sumZ (map carry_out aggregated)
  /\ (D ≠ 0 \/ S ≠ 0 ->
      sequence_label_cards aggregated =
        flat_map spec_cards_for aggregated
        ++ [ {| name := "Pack Summary"; count := None;
                doubles := Some D; singles := Some S |} ]
      /\ filter is_pack_summary (sequence_label_cards aggregated) =
         [ {| name := "Pack Summary"; count := None;
              doubles := Some D; singles := Some S |} ])
  /\ (D = 0 /\ S = 0 -> sequence_label_cards aggregated = []).
Proof.
  intros Hnn D S.
  destruct (packed_totals aggregated Hnn) as (Hd & Hs & Hd0 & Hs0 & Hsum).
  fold D in Hd. fold S in Hs. rewrite Hd, Hs in Hsum.
  split; [exact Hsum|].
  rewrite sequence_label_cards_spec, Hd, Hs.
  split.
  - intros Hne. case_decide as Hz; [lia|].
    split; [reflexivity|].
    rewrite filter_app.
    rewrite filter_none by apply flat_map_cards_plain.
    simpl. rewrite filter_cons_True; [reflexivity|].
    unfold is_pack_summary. simpl. left. congruence.
  - intros [HD HS]. case_decide as Hz; [|tauto].
    rewrite app_nil_r. apply no_carry_no_cards; [exact Hnn|lia].
Qed.

(** The pack summary of three names, one of them without carry-out. *)
Lemma pack_summary_card_totals_witness :
  sequence_label_cards
    [ {| order_name := "Alice"; carry_out := 3; dine_in := 2 |};
      {| order_name := "Bob"; carry_out := 5; dine_in := 0 |};
      {| order_name := "Cy"; carry_out := 0; dine_in := 1 |} ]
  = [ primary_card "Alice" 3; continuation_card "Alice";
      primary_card "Bob" 5; continuation_card "Bob"; continuation_card "Bob";
      pack_summary_card 3 2 ].
Proof.
  refine (proj1 (proj1 (proj2 (pack_summary_card_totals
    [ {| order_name := "Alice"; carry_out := 3; dine_in := 2 |};
      {| order_name := "Bob"; carry_out := 5; dine_in := 0 |};
      {| order_name := "Cy"; carry_out := 0; dine_in := 1 |} ] _)) _)).
  - repeat constructor; simpl; lia.
  - left. vm_compute. discriminate.
Defined.

(** ** Schema normaliser *)

Lemma header_lookup_snoc (cols : list string) (col : string) :
  header_lookup (cols ++ [col]) = <[header_key col := col]> (header_lookup cols).
Proof. unfold header_lookup. by rewrite foldl_snoc. Qed.

Lemma header_lookup_Some (cols : list string) (key col : string) :
  header_lookup cols !! key = Some col -> col ∈ cols /\ header_key col = key.
Proof.
  induction cols as [|c cols IH] using rev_ind.
  - unfold header_lookup. simpl. by rewrite lookup_empty.
  - rewrite header_lookup_snoc.
    destruct (decide (header_key c = key)) as [Heq|Hne].
    + rewrite Heq, lookup_insert_eq. intros [= <-].
      split; [|done]. apply elem_of_app. right. by apply list_elem_of_singleton.
    + rewrite lookup_insert_ne by done. intros H.
      destruct (IH H) as [Hin Hk]. split; [|done].
      apply elem_of_app. by left.
Qed.

Lemma header_lookup_is_Some (cols : list string) (col : string) :
  col ∈ cols -> is_Some (header_lookup cols !! header_key col).
Proof.
  induction cols as [|c cols IH] using rev_ind.
  - by intros ?%elem_of_nil.
  - rewrite header_lookup_snoc. intros [Hin|Hin%list_elem_of_singleton]%elem_of_app.
    + destruct (decide (header_key c = header_key col)) as [Heq|Hne].
      * rewrite Heq, lookup_insert_eq. eauto.
      * rewrite lookup_insert_ne by done. auto.
    + subst c. rewrite lookup_insert_eq. eauto.
Qed.

Section rename_map.
Variable lookup : gmap string string.

Lemma rename_loop_None (aliases : list (string * string))
    (rename_map : gmap string string) (field : string) :
  foldl (rename_step lookup) rename_map aliases !! field = None <->
  rename_map !! field = None
  /\ forall alias, (alias, field) ∈ aliases -> lookup !! alias = None.
Proof.
  revert rename_map.
  induction aliases as [|[a f] aliases IH]; intros rename_map; simpl.
  - split; [|tauto]. intros H. split; [done|]. by intros ? ?%elem_of_nil.
  - rewrite IH. unfold rename_step.
    split.
    + intros [Hrm Hrest].
      assert (rename_map !! field = None /\ (f = field -> lookup !! a = None))
        as [Hfield Ha].
      { destruct (lookup !! a) as [col|] eqn:Hl; [|done].
        destruct (rename_map !! f) as [old|] eqn:Hf; [|].
        - split; [done|]. intros ->. congruence.
        - destruct (decide (f = field)) as [->|Hne].
          + by rewrite lookup_insert_eq in Hrm.
          + rewrite lookup_insert_ne in Hrm by done. split; [done|]. tauto. }
      split; [done|].
      intros alias [[= -> <-]|Hin]%elem_of_cons; auto.
    + intros [Hrm Hall]. split.
      * destruct (lookup !! a) as [col|] eqn:Hl; [|done].
        destruct (rename_map !! f) as [old|] eqn:Hf; [done|].
        destruct (decide (f = field)) as [->|Hne].
        -- rewrite (Hall a) in Hl; [done|]. by left.
        -- by rewrite lookup_insert_ne.
      * intros alias Hin. apply Hall. by right.
Qed.

Lemma rename_loop_Some (aliases : list (string * string))
    (rename_map : gmap string string) (field col : string) :
  foldl (rename_step lookup) rename_map aliases !! field = Some col ->
  rename_map !! field = Some col
  \/ exists alias, (alias, field) ∈ aliases /\ lookup !! alias = Some col.
Proof.
  revert rename_map.
  induction aliases as [|[a f] aliases IH]; intros rename_map; simpl; [auto|].
  intros H. apply IH in H as [H|(alias & Hin & Hl)].
  - unfold rename_step in H.
    destruct (lookup !! a) as [c|] eqn:Hl; [|auto].
    destruct (rename_map !! f) as [old|] eqn:Hf; [auto|].
    destruct (decide (f = field)) as [->|Hne].
    + rewrite lookup_insert_eq in H. injection H as ->.
      right. exists a. split; [by left|done].
    + rewrite lookup_insert_ne in H by done. auto.
  - right. exists alias. split; [by right|done].
Qed.
End rename_map.

Lemma rename_map_None (headers : list string) (field : string) :
  build_rename_map (header_lookup headers) !! field = None <->
  ¬ has_alias headers field.
Proof.
  unfold build_rename_map. rewrite rename_loop_None, lookup_empty.
  unfold has_alias. rewrite Exists_exists. unfold spells_alias.
  split.
  - intros [_ Hall] (h & Hin & Hspell).
    destruct (header_lookup_is_Some headers h Hin) as [c Hc].
    specialize (Hall _ Hspell). unfold header_key in Hc. congruence.
  - intros Hno. split; [done|]. intros alias Hin.
    destruct (header_lookup headers !! alias) as [c|] eqn:Hl; [|done].
    apply header_lookup_Some in Hl as [Hc Hk]. exfalso. apply Hno.
    exists c. split; [done|]. unfold header_key in Hk. by rewrite Hk.
Qed.

Lemma rename_map_Some (headers : list string) (field col : string) :
  build_rename_map (header_lookup headers) !! field = Some col ->
  col ∈ headers /\ spells_alias field col.
Proof.
  unfold build_rename_map. intros H.
  apply rename_loop_Some in H as [H|(alias & Hin & Hl)].
  - by rewrite lookup_empty in H.
  - apply header_lookup_Some in Hl as [Hc Hk]. split; [done|].
    unfold spells_alias. unfold header_key in Hk. by rewrite Hk.
Qed.

Lemma missing_fields_spec (headers : list string) :
  missing_fields (build_rename_map (header_lookup headers)) =
  filter (fun field => ¬ has_alias headers field) canonical_fields.
Proof.
  unfold missing_fields. apply list_filter_iff. intros field.
  apply rename_map_None.
Qed.

Lemma normalize_cases (df : DataFrame) :
  _normalize_orders_dataframe df =
  match filter (fun field => ¬ has_alias (columns df) field) canonical_fields with
  | [] => Ok (rename df (renames (build_rename_map (header_lookup (columns df)))))
  | missing => Raise (ValueError (missing_message missing))
  end.
Proof.
  unfold _normalize_orders_dataframe. rewrite missing_fields_spec.
  by destruct (filter _ canonical_fields).
Qed.


(** Scenario 4 of the design document: no dine-in column. *)
Example missing_dine_in :
  build_labels_pdf {| columns := ["Name"; "Carry Out"]; rows := [["Ann"; "2"]] |}
  = Raise (ValueError "Missing required columns: dine_in").
Proof. reflexivity. Qed.

Example missing_two :
  _normalize_orders_dataframe {| columns := ["Customer"; "Notes"]; rows := [] |}
  = Raise (ValueError "Missing required columns: carry_out, dine_in").
Proof. reflexivity. Qed.

(** C9, as stated: every header that equals an alias spelling up to letter
    case and whitespace would be resolved to the alias's field.  The header
    "Carry  Out" differs from the alias "carry out" by whitespace only, and
    is not resolved. *)
Lemma interior_whitespace_is_not_ignored :
  ¬ (forall (headers : list string) (h alias field : string),
       h ∈ headers -> (alias, field) ∈ column_aliases -> same_spelling h alias ->
       build_rename_map (header_lookup headers) !! field = Some h).
Proof.
  intros claim.
  specialize (claim ["Name"; "Carry  Out"; "Dine In"] "Carry  Out" "carry out" "carry_out").
  assert (build_rename_map (header_lookup ["Name"; "Carry  Out"; "Dine In"])
            !! "carry_out" = None) as Hnone by (vm_compute; reflexivity).
  rewrite claim in Hnone; [discriminate| | |].
  - apply list_elem_of_In. simpl. tauto.
  - apply list_elem_of_In. simpl. tauto.
  - vm_compute. reflexivity.
Qed.

(** Two headers that spell aliases of one field compete; only one of them
    is taken. *)
Example competing_headers :
  build_rename_map (header_lookup ["Customer"; "Name"; "carryout"; "dinein"]) !! "name"
  = Some "Name".
Proof. vm_compute. reflexivity. Qed.

(** C9, amended: matching ignores letter case and the whitespace around a
    header, not the whitespace inside it.  When a header, trimmed and
    lowercased, is an alias spelling, the field of that alias is resolved to
    a header that spells one of its aliases in this way, and to that very
    header when no other header does. *)
Theorem alias_matching_trims_and_folds_case
    (headers : list string) (h field : string) :
  h ∈ headers ->
  (Py.lower (Py.strip h), field) ∈ column_aliases ->
  (exists h', build_rename_map (header_lookup headers) !! field = Some h'
              /\ h' ∈ headers
              /\ (Py.lower (Py.strip h'), field) ∈ column_aliases)
  /\ ((forall h', h' ∈ headers ->
         (Py.lower (Py.strip h'), field) ∈ column_aliases -> h' = h) ->
      build_rename_map (header_lookup headers) !! field = Some h).
Proof.
  intros Hin Hspell.
  destruct (build_rename_map (header_lookup headers) !! field) as [h'|] eqn:Hrm.
  - destruct (rename_map_Some _ _ _ Hrm) as [Hin' Hspell'].
    split; [eauto|]. intros Huniq. f_equal. by apply Huniq.
  - exfalso. apply rename_map_None in Hrm. apply Hrm.
    apply Exists_exists. exists h. by split.
Qed.

(** A header in capitals with blanks around it, alone to spell an alias of
    its field. *)
Lemma alias_matching_trims_and_folds_case_witness :
  build_rename_map (header_lookup ["  CUSTOMER "; "Carry-Out"; "dinein"]) !! "name"
  = Some "  CUSTOMER ".
Proof.
  refine (proj2 (alias_matching_trims_and_folds_case
    ["  CUSTOMER "; "Carry-Out"; "dinein"] "  CUSTOMER " "name" _ _) _).
  - apply list_elem_of_In. simpl. tauto.
  - apply list_elem_of_In. vm_compute. tauto.
  - intros h' Hin Hspell. apply list_elem_of_In in Hin. simpl in Hin.
    destruct Hin as [<-|[<-|[<-|[]]]]; [reflexivity| |];
      apply list_elem_of_In in Hspell; vm_compute in Hspell;
      repeat (destruct Hspell as [Hspell|Hspell]; [discriminate|]); destruct Hspell.
Defined.

(** ** Ordinal comparison of names *)

Lemma compare_refl (s : string) : String.compare s s = Eq.
Proof.
  induction s as [|c s IH]; simpl; [reflexivity|].
  unfold Ascii.compare. by rewrite N.compare_refl.
Qed.

Lemma compare_Eq (a b : string) : String.compare a b = Eq <-> a = b.
Proof.
  split; [apply String.compare_eq_iff|]. intros ->. apply compare_refl.
Qed.

Lemma compare_Gt_Lt (a b : string) :
  String.compare a b = Gt <-> String.compare b a = Lt.
Proof.
  rewrite (String.compare_antisym b a).
  destruct (String.compare a b); simpl; split; congruence.
Qed.

Lemma compare_Lt_trans (a b c : string) :
  String.compare a b = Lt -> String.compare b c = Lt -> String.compare a c = Lt.
Proof.
  intros Hab Hbc.
  assert (String.le a c) as Hac.
  { transitivity b; unfold String.le, String.leb; [by rewrite Hab|by rewrite Hbc]. }
  unfold String.le, String.leb in Hac.
  destruct (String.compare a c) eqn:Hcmp; [|reflexivity|done].
  apply compare_Eq in Hcmp as ->.
  apply compare_Gt_Lt in Hab. congruence.
Qed.

Lemma compare_Lt_ne (a b : string) : String.compare a b = Lt -> a ≠ b.
Proof. intros H ->. by rewrite compare_refl in H. Qed.

(** ** Grouping *)

Lemma add_to_group_above (x : AggregatedOrder) (n : string) (c d : Z)
    (groups : list AggregatedOrder) :
  String.compare (order_name x) n = Lt ->
  Forall (name_lt x) groups ->
  Forall (name_lt x) (add_to_group n c d groups).
Proof.
  intros Hx. induction 1 as [|g groups Hg Hall IH]; simpl.
  - by repeat constructor.
  - destruct (String.compare n (order_name g)) eqn:Hcmp.
    + constructor; [exact Hx|exact Hall].
    + constructor; [exact Hx|]. by constructor.
    + constructor; [exact Hg|exact IH].
Qed.

Lemma add_to_group_sorted (n : string) (c d : Z) (groups : list AggregatedOrder) :
  StronglySorted name_lt groups ->
  StronglySorted name_lt (add_to_group n c d groups).
Proof.
  induction 1 as [|g groups Hsorted IH Hall]; simpl.
  - by repeat constructor.
  - destruct (String.compare n (order_name g)) eqn:Hcmp.
    + apply compare_Eq in Hcmp. constructor; [exact Hsorted|].
      eapply Forall_impl; [exact Hall|]. intros y Hy.
      unfold name_lt in *. simpl. by rewrite Hcmp.
    + constructor; [by constructor|].
      constructor; [exact Hcmp|].
      eapply Forall_impl; [exact Hall|]. intros y Hy.
      unfold name_lt in *. simpl. eapply compare_Lt_trans; eauto.
    + constructor; [exact IH|].
      apply add_to_group_above; [|exact Hall]. by apply compare_Gt_Lt.
Qed.

Lemma add_to_group_names (n : string) (c d : Z) (groups : list AggregatedOrder)
    (m : string) :
  m ∈ map order_name (add_to_group n c d groups) <->
  m = n \/ m ∈ map order_name groups.
Proof.
  induction groups as [|g groups IH]; simpl.
  - rewrite list_elem_of_singleton. rewrite elem_of_nil. tauto.
  - destruct (String.compare n (order_name g)) eqn:Hcmp; simpl.
    + apply compare_Eq in Hcmp. rewrite !elem_of_cons, <- Hcmp. tauto.
    + rewrite !elem_of_cons. tauto.
    + rewrite !elem_of_cons, IH. tauto.
Qed.

Lemma total_of_cons (f : AggregatedOrder -> Z) (n : string) (g : AggregatedOrder)
    (groups : list AggregatedOrder) :
  total_of f n (g :: groups) =
  (if decide (order_name g = n) then f g else 0) + total_of f n groups.
Proof.
  unfold total_of. rewrite filter_cons. by case_decide.
Qed.

Lemma add_to_group_total (n : string) (c d : Z) (groups : list AggregatedOrder)
    (m : string) :
  total_of carry_out m (add_to_group n c d groups) =
    total_of carry_out m groups + (if decide (n = m) then c else 0)
  /\ total_of dine_in m (add_to_group n c d groups) =
    total_of dine_in m groups + (if decide (n = m) then d else 0).
Proof.
  induction groups as [|g groups [IHc IHd]]; simpl.
  - rewrite !total_of_cons. unfold total_of. simpl. split; case_decide; lia.
  - destruct (String.compare n (order_name g)) eqn:Hcmp.
    + apply compare_Eq in Hcmp. rewrite !total_of_cons. simpl.
      rewrite <- Hcmp. split; case_decide; lia.
    + rewrite !total_of_cons. simpl. split; repeat case_decide; lia.
    + rewrite !(total_of_cons _ _ g), IHc, IHd. split; lia.
Qed.

Lemma total_of_sorted (f : AggregatedOrder -> Z) (groups : list AggregatedOrder)
    (row : AggregatedOrder) :
  StronglySorted name_lt groups -> row ∈ groups ->
  total_of f (order_name row) groups = f row.
Proof.
  induction 1 as [|g groups Hsorted IH Hall]; [by intros ?%elem_of_nil|].
  rewrite total_of_cons. intros [->|Hin]%elem_of_cons.
  - rewrite decide_True by done.
    unfold total_of. rewrite filter_none; [simpl; lia|].
    eapply Forall_impl; [exact Hall|]. intros y Hy Heq.
    apply compare_Lt_ne in Hy. congruence.
  - assert (order_name g ≠ order_name row) as Hne.
    { rewrite Forall_forall in Hall. apply compare_Lt_ne. by apply Hall. }
    rewrite decide_False, IH by done. lia.
Qed.

Lemma groupby_sum_fold (records : list (string * Z * Z)) :
  groupby_sum records = foldl group_step [] records.
Proof. reflexivity. Qed.

Lemma group_fold_sorted (records : list (string * Z * Z))
    (groups : list AggregatedOrder) :
  StronglySorted name_lt groups ->
  StronglySorted name_lt (foldl group_step groups records).
Proof.
  revert groups. induction records as [|[[n c] d] records IH]; intros groups H; simpl.
  - exact H.
  - apply IH. by apply add_to_group_sorted.
Qed.

Lemma group_fold_names (records : list (string * Z * Z))
    (groups : list AggregatedOrder) (m : string) :
  m ∈ map order_name (foldl group_step groups records) <->
  m ∈ map order_name groups \/ m ∈ map (fun r => r.1.1) records.
Proof.
  revert groups. induction records as [|[[n c] d] records IH]; intros groups; simpl.
  - rewrite elem_of_nil. tauto.
  - rewrite IH, add_to_group_names, elem_of_cons. simpl. tauto.
Qed.

Lemma group_fold_total (records : list (string * Z * Z))
    (groups : list AggregatedOrder) (m : string) :
  total_of carry_out m (foldl group_step groups records) =
    total_of carry_out m groups
    + sumZ (map (fun r => r.1.2) (filter (fun r => r.1.1 = m) records))
  /\ total_of dine_in m (foldl group_step groups records) =
    total_of dine_in m groups
    + sumZ (map (fun r => r.2) (filter (fun r => r.1.1 = m) records)).
Proof.
  revert groups. induction records as [|[[n c] d] records IH]; intros groups; simpl.
  - lia.
  - destruct (IH (add_to_group n c d groups)) as [-> ->].
    destruct (add_to_group_total n c d groups m) as [-> ->].
    rewrite filter_cons. simpl. case_decide; simpl; lia.
Qed.

(** ** Order aggregator *)

Lemma coerced_values (cells : list string) (values : list Z) :
  Forall2 (fun s n => Numeric.coerce s = Ok n) cells values ->
  values = map cell_value cells.
Proof.
  induction 1 as [|s n cells values Hs _ IH]; simpl; [reflexivity|].
  unfold cell_value at 1. rewrite Hs. by f_equal.
Qed.

Lemma zip3_map {A} (f : A -> string) (g h : A -> Z) (l : list A) :
  zip3 (map f l) (map g l) (map h l) = map (fun x => (f x, g x, h x)) l.
Proof. induction l as [|x l IH]; simpl; [reflexivity|]. by rewrite IH. Qed.

Lemma aggregate_orders_Ok (records : list CanonicalOrderRow)
    (aggregated : list AggregatedOrder) :
  aggregate_orders records = Ok aggregated ->
  aggregated = groupby_sum (map coerced_record (filter named records)).
Proof.
  unfold aggregate_orders. fold named.
  destruct (traverse Numeric.coerce (map row_carry_out (filter named records)))
    as [e|carry] eqn:Hc; simpl; [discriminate|].
  destruct (traverse Numeric.coerce (map row_dine_in (filter named records)))
    as [e|dine] eqn:Hd; simpl; [discriminate|].
  intros [= <-].
  apply traverse_Ok, coerced_values in Hc. apply traverse_Ok, coerced_values in Hd.
  subst carry dine. rewrite !map_map.
  rewrite (zip3_map (fun r => Py.strip (row_name r))). reflexivity.
Qed.

Lemma aggregate_orders_raises (records : list CanonicalOrderRow) (e : exn) :
  aggregate_orders records = Raise e ->
  e = IntCastingNaNError
  /\ exists r negative, r ∈ records /\ named r
       /\ (Numeric.to_numeric (row_carry_out r) = Inf negative
           \/ Numeric.to_numeric (row_dine_in r) = Inf negative).
Proof.
  unfold aggregate_orders. fold named.
  destruct (traverse Numeric.coerce (map row_carry_out (filter named records)))
    as [e1|carry] eqn:Hc; simpl.
  - intros [= <-]. apply traverse_raises, Exists_exists in Hc as (s & Hin & Hs).
    apply list_elem_of_fmap in Hin as (r & -> & Hr).
    apply list_elem_of_filter in Hr as [Hnamed Hr].
    apply coerce_raises_inf in Hs as [-> [negative Hinf]]. eauto 10.
  - destruct (traverse Numeric.coerce (map row_dine_in (filter named records)))
      as [e1|dine] eqn:Hd; simpl; [|discriminate].
    intros [= <-]. apply traverse_raises, Exists_exists in Hd as (s & Hin & Hs).
    apply list_elem_of_fmap in Hin as (r & -> & Hr).
    apply list_elem_of_filter in Hr as [Hnamed Hr].
    apply coerce_raises_inf in Hs as [-> [negative Hinf]]. eauto 10.
Qed.



Lemma aggregate_orders_sorted
    (records : list CanonicalOrderRow) (aggregated : list AggregatedOrder) :
  aggregate_orders records = Ok aggregated -> StronglySorted name_lt aggregated.
Proof.
  intros ->%aggregate_orders_Ok. rewrite groupby_sum_fold.
  apply group_fold_sorted. constructor.
Qed.

Lemma aggregate_orders_names
    (records : list CanonicalOrderRow) (aggregated : list AggregatedOrder) (n : string) :
  aggregate_orders records = Ok aggregated ->
  n ∈ map order_name aggregated <->
  n ≠ "" /\ exists r, r ∈ records /\ Py.strip (row_name r) = n.
Proof.
  intros ->%aggregate_orders_Ok. rewrite groupby_sum_fold.
  rewrite group_fold_names. simpl. rewrite elem_of_nil.
  rewrite map_map. simpl. rewrite list_elem_of_fmap.
  split.
  - intros [[]|(r & -> & Hr)]. apply list_elem_of_filter in Hr as [Hnamed Hr].
    split; [exact Hnamed|eauto].
  - intros (Hn & r & Hr & <-). right. exists r. split; [reflexivity|].
    apply list_elem_of_filter. by split.
Qed.





(** Scenario 1 of the design document: "Alice" and "alice" do not merge. *)
Example alice_and_alice :
  aggregate_orders
    [ {| row_name := "Alice"; row_carry_out := "3"; row_dine_in := "2" |};
      {| row_name := "alice"; row_carry_out := "1"; row_dine_in := "0" |} ]
  = Ok [ {| order_name := "Alice"; carry_out := 3; dine_in := 2 |};
         {| order_name := "alice"; carry_out := 1; dine_in := 0 |} ].
Proof. reflexivity. Qed.


Lemma aggregate_orders_finite (records : list CanonicalOrderRow) :
  (forall r negative, r ∈ records -> named r ->
     Numeric.to_numeric (row_carry_out r) ≠ Inf negative
     /\ Numeric.to_numeric (row_dine_in r) ≠ Inf negative) ->
  exists aggregated, aggregate_orders records = Ok aggregated.
Proof.
  intros Hfinite. destruct (aggregate_orders records) as [e|aggregated] eqn:H; [|eauto].
  apply aggregate_orders_raises in H as (_ & r & negative & Hr & Hnamed & Hinf).
  destruct (Hfinite r negative Hr Hnamed). tauto.
Qed.

(** C5. The aggregator is said never to raise, whatever the cells hold.
    A carry-out cell reading "inf" is coerced to an infinite float, which
    the conversion to integers refuses. *)
Theorem infinite_cell_raises :
  Numeric.to_numeric "inf" = Inf false
  /\ aggregate_orders
       [ {| row_name := "Bob"; row_carry_out := "inf"; row_dine_in := "0" |} ]
     = Raise IntCastingNaNError.
Proof. split; reflexivity. Qed.


(** ** Dine-in summary *)

Lemma dine_summary_cons (g : AggregatedOrder) (groups : list AggregatedOrder) :
  dine_summary (g :: groups) =
  if decide (0 < dine_in g) then (order_name g, dine_in g) :: dine_summary groups
  else dine_summary groups.
Proof. unfold dine_summary. rewrite filter_cons. by case_decide. Qed.

Lemma dine_summary_elem (aggregated : list AggregatedOrder) (n : string) (c : Z) :
  (n, c) ∈ dine_summary aggregated <->
  exists row, row ∈ aggregated /\ order_name row = n /\ dine_in row = c /\ 0 < c.
Proof.
  unfold dine_summary. rewrite list_elem_of_fmap. split.
  - intros (row & [= -> ->] & Hrow). apply list_elem_of_filter in Hrow as [Hpos Hrow].
    eauto.
  - intros (row & Hrow & <- & <- & Hpos). exists row. split; [reflexivity|].
    apply list_elem_of_filter. by split.
Qed.

Lemma dine_summary_above (g : AggregatedOrder) (d : Z) (groups : list AggregatedOrder) :
  Forall (name_lt g) groups ->
  Forall (entry_lt (order_name g, d)) (dine_summary groups).
Proof.
  induction 1 as [|x groups Hx _ IH]; [constructor|].
  rewrite dine_summary_cons. case_decide; [|exact IH].
  constructor; [exact Hx|exact IH].
Qed.

Lemma dine_summary_sorted (aggregated : list AggregatedOrder) :
  StronglySorted name_lt aggregated ->
  StronglySorted entry_lt (dine_summary aggregated).
Proof.
  induction 1 as [|g groups _ IH Hall]; [constructor|].
  rewrite dine_summary_cons. case_decide; [|exact IH].
  constructor; [exact IH|]. by apply dine_summary_above.
Qed.

Lemma entries_sorted_NoDup (entries : list (string * Z)) :
  StronglySorted entry_lt entries -> NoDup (map fst entries).
Proof.
  induction 1 as [|x l _ IH Hall]; simpl; constructor; [|exact IH].
  rewrite list_elem_of_fmap. intros (y & Heq & Hy).
  rewrite Forall_forall in Hall. apply Hall, compare_Lt_ne in Hy. congruence.
Qed.

(** C8. The dine-in summary lists exactly the aggregated names with a
    dine-in total above 0, each once, ascending by name; the summary page is
    its title and then the "no entries" line when the list is empty,
    otherwise one table whose first row is Name, Number, with one row per
    entry and columns 70% and 30% of the width between the margins. *)
Theorem dine_in_summary_entries
    (records : list CanonicalOrderRow) (aggregated : list AggregatedOrder)
    (page_width page_height : Q) :
  aggregate_orders records = Ok aggregated ->
  let summary := dine_summary aggregated in
  let available_width := (page_width - 2 * Layout.PAGE_MARGIN_X)%Q in
  let start_y := (page_height - Layout.PAGE_MARGIN_Y - 30)%Q in
  (forall n c, (n, c) ∈ summary <->
     exists row, row ∈ aggregated /\ order_name row = n /\ dine_in row = c /\ 0 < c)
  /\ StronglySorted entry_lt summary
  /\ NoDup (map fst summary)
  /\ (summary = [] ->
      draw_dine_in_summary summary page_width page_height =
      [ DrawString "Helvetica-Bold" 18 Layout.PAGE_MARGIN_X
          (page_height - Layout.PAGE_MARGIN_Y)%Q "Dine-In Summary";
        DrawString "Helvetica" 11 Layout.PAGE_MARGIN_X start_y "No dine-in orders." ])
  /\ (summary ≠ [] ->
      exists w_name w_number,
        draw_dine_in_summary summary page_width page_height =
        [ DrawString "Helvetica-Bold" 18 Layout.PAGE_MARGIN_X
            (page_height - Layout.PAGE_MARGIN_Y)%Q "Dine-In Summary";
          DrawTable
            (["Name"; "Number"] :: map (fun entry => [entry.1; Py.str entry.2]) summary)
            [w_name; w_number] Layout.PAGE_MARGIN_X start_y ]
        /\ (w_name == (7 # 10) * available_width)%Q
        /\ (w_number == (3 # 10) * available_width)%Q).
Proof.
  intros Hagg summary available_width start_y.
  pose proof (aggregate_orders_sorted _ _ Hagg) as Hsorted.
  split; [intros n c; apply dine_summary_elem|].
  split; [by apply dine_summary_sorted|].
  split; [by apply entries_sorted_NoDup, dine_summary_sorted|].
  split.
  - intros ->. reflexivity.
  - intros Hne. destruct summary as [|entry rest] eqn:Hs; [done|].
    exists (available_width * 0.7)%Q, (available_width * 0.3)%Q.
    split; [|split].
    + assert (forall l : list (string * Z),
                map (fun '(n, c) => [n; Py.str c]) l
                = map (fun entry => [entry.1; Py.str entry.2]) l) as Hmap
        by (intros l; apply map_ext; by intros [n c]).
      unfold draw_dine_in_summary. rewrite Hmap. reflexivity.
    + unfold Qeq. simpl. lia.
    + unfold Qeq. simpl. lia.
Qed.

(** Three names, two of them dining in. *)
Lemma dine_in_summary_entries_witness :
  dine_summary
    [ {| order_name := "Ann"; carry_out := 0; dine_in := 2 |};
      {| order_name := "Cy"; carry_out := 4; dine_in := 1 |} ] ≠ []
  /\ StronglySorted entry_lt [("Ann", 2); ("Cy", 1)].
Proof.
  split; [discriminate|].
  exact (proj1 (proj2 (dine_in_summary_entries
    [ {| row_name := "Cy"; row_carry_out := "4"; row_dine_in := "1" |};
      {| row_name := "Bo"; row_carry_out := "1"; row_dine_in := "0" |};
      {| row_name := "Ann"; row_carry_out := "x"; row_dine_in := "2" |} ]
    _ 612%Q 792%Q eq_refl))).
Defined.

(** ** Grid layout *)

Lemma label_step_spec (h : Q) (st : Canvas * bool) (i : Z) (card : LabelCard) :
  label_step h st (i, card) =
  (draw (if (negb (i =? 0) && (i mod 30 =? 0))%bool then showPage st.1 else st.1)
        (layout_cell h i card), true).
Proof. destruct st as [pdf b]. reflexivity. Qed.

Lemma enumerate_from_app {A} (i : Z) (l k : list A) :
  enumerate_from i (l ++ k) =
  enumerate_from i l ++ enumerate_from (i + Z.of_nat (length l)) k.
Proof.
  revert i. induction l as [|a l IH]; intros i; simpl.
  - by rewrite Z.add_0_r.
  - rewrite IH. do 3 f_equal. lia.
Qed.

Lemma enumerate_snoc {A} (l : list A) (a : A) :
  enumerate (l ++ [a]) = enumerate l ++ [(Z.of_nat (length l), a)].
Proof. unfold enumerate. by rewrite enumerate_from_app. Qed.

Lemma enumerate_from_length {A} (i : Z) (l : list A) :
  length (enumerate_from i l) = length l.
Proof. revert i. induction l as [|a l IH]; intros i; simpl; [done|]. by rewrite IH. Qed.

Lemma enumerate_from_lookup {A} (i : Z) (l : list A) (n : nat) (a : A) :
  l !! n = Some a -> enumerate_from i l !! n = Some (i + Z.of_nat n, a).
Proof.
  revert i n. induction l as [|x l IH]; intros i n; [done|].
  destruct n as [|n]; simpl.
  - intros [= ->]. by rewrite Z.add_0_r.
  - intros H. rewrite (IH _ _ H). do 2 f_equal. lia.
Qed.

Lemma loop_after_S (h : Q) (cards : list LabelCard) (k : nat) (card : LabelCard) :
  cards !! k = Some card ->
  loop_after h cards (S k) = label_step h (loop_after h cards k) (Z.of_nat k, card).
Proof.
  intros Hk. unfold loop_after.
  rewrite (take_S_r _ _ _ Hk), enumerate_snoc, foldl_snoc.
  rewrite length_take_le; [reflexivity|].
  apply lookup_lt_Some in Hk. lia.
Qed.

Lemma loop_after_flag (h : Q) (cards : list LabelCard) (k : nat) :
  (k <= length cards)%nat ->
  (loop_after h cards k).2 = bool_decide (0 < k)%nat.
Proof.
  destruct k as [|k]; [reflexivity|]. intros Hk.
  destruct (lookup_lt_is_Some_2 cards k ltac:(lia)) as [card Hcard].
  rewrite (loop_after_S _ _ _ _ Hcard), label_step_spec. reflexivity.
Qed.

Lemma layout_invariant_count (h : Q) (cards : list LabelCard) (k : nat) (pdf : Canvas) :
  (k <= length cards)%nat ->
  layout_invariant h cards k pdf ->
  (30 * length (pages pdf) + length (current pdf) = k)%nat.
Proof.
  intros Hk (Hfull & Hcat & _ & _).
  apply (f_equal length) in Hcat.
  unfold cells_of, enumerate in Hcat.
  rewrite length_map, enumerate_from_length, length_take_le in Hcat by done.
  rewrite concat_app, length_app in Hcat. simpl in Hcat. rewrite app_nil_r in Hcat.
  rewrite <- Hcat. f_equal.
  clear -Hfull. induction Hfull as [|pg pgs Hpg _ IH]; simpl; [reflexivity|].
  rewrite length_app, Hpg. lia.
Qed.

Lemma layout_loop_invariant (h : Q) (cards : list LabelCard) (k : nat) :
  (k <= length cards)%nat ->
  layout_invariant h cards k (loop_after h cards k).1.
Proof.
  induction k as [|k IH]; intros Hk.
  - split; [constructor|]. split; [reflexivity|]. split; [reflexivity|lia].
  - destruct (lookup_lt_is_Some_2 cards k ltac:(lia)) as [card Hcard].
    specialize (IH ltac:(lia)).
    pose proof (layout_invariant_count h cards k _ ltac:(lia) IH) as Hcount.
    rewrite (loop_after_S _ _ _ _ Hcard), label_step_spec.
    set (pdf := (loop_after h cards k).1) in *.
    destruct IH as (Hfull & Hcat & Hzero & Hopen).
    assert (cells_of h (enumerate (take (S k) cards)) =
            cells_of h (enumerate (take k cards)) ++ [layout_cell h (Z.of_nat k) card])
      as Hcells.
    { rewrite (take_S_r _ _ _ Hcard), enumerate_snoc. unfold cells_of.
      rewrite map_app. simpl. rewrite length_take_le by lia. reflexivity. }
    pose proof (Nat.div_mod_eq k 30) as Hdm.
    pose proof (Nat.mod_upper_bound k 30 ltac:(lia)) as Hmod.
    assert (Z.of_nat k mod 30 = Z.of_nat (k mod 30)) as HmodZ.
    { rewrite Nat2Z.inj_mod. reflexivity. }
    destruct (Z.eqb_spec (Z.of_nat k) 0) as [Hk0|Hk0];
      [|destruct (Z.eqb_spec (Z.of_nat k mod 30) 0) as [Hp0|Hp0]]; cbn [negb andb fst].
    + assert (k = 0%nat) as -> by lia. rewrite (Hzero eq_refl).
      split; [constructor|]. split; [by rewrite Hcells|].
      split; [lia|]. simpl. lia.
    + assert (length (current pdf) = 30%nat) as Hlen by lia.
      split; [|split; [|split]]; cbn [draw showPage pages current].
      * apply Forall_app. split; [exact Hfull|]. by repeat constructor.
      * rewrite Hcells, <- Hcat, !concat_app. simpl. by rewrite !app_nil_r.
      * lia.
      * simpl. lia.
    + assert (length (current pdf) < 30)%nat as Hlen by lia.
      split; [|split; [|split]]; cbn [draw showPage pages current].
      * exact Hfull.
      * rewrite Hcells, <- Hcat, !concat_app. simpl.
        by rewrite !app_nil_r, app_assoc.
      * lia.
      * rewrite length_app. simpl. lia.
Qed.

Lemma lookup_concat_uniform {A} (n : nat) (full : list (list A)) (open : list A)
    (i : nat) :
  (0 < n)%nat ->
  Forall (fun pg => length pg = n) full ->
  (length open <= n)%nat ->
  (i < length (concat (full ++ [open])))%nat ->
  exists pg, (full ++ [open]) !! (i / n)%nat = Some pg
             /\ pg !! (i mod n)%nat = concat (full ++ [open]) !! i.
Proof.
  intros Hn Hfull Hopen. revert i.
  induction Hfull as [|pg full Hpg _ IH]; intros i Hi; simpl in *.
  - rewrite app_nil_r in *.
    rewrite Nat.div_small, Nat.mod_small by lia. eauto.
  - destruct (decide (i < n)%nat) as [Hlt|Hge].
    + rewrite Nat.div_small, Nat.mod_small by lia.
      exists pg. split; [reflexivity|]. by rewrite lookup_app_l by lia.
    + rewrite length_app in Hi.
      destruct (IH (i - n)%nat ltac:(lia)) as (pg' & Hpg' & Hlook).
      assert (i = (i - n) + 1 * n)%nat as Hi' by lia.
      assert (i / n = S ((i - n) / n))%nat as ->.
      { rewrite Hi' at 1. rewrite Nat.div_add by lia. lia. }
      assert (i mod n = (i - n) mod n)%nat as ->.
      { rewrite Hi' at 1. by rewrite Nat.Div0.mod_add. }
      exists pg'. split; [exact Hpg'|].
      rewrite Hlook, lookup_app_r by lia. by rewrite Hpg.
Qed.

Lemma cells_of_lookup (h : Q) (cards : list LabelCard) (i : nat) (card : LabelCard) :
  cards !! i = Some card ->
  cells_of h (enumerate cards) !! i = Some (layout_cell h (Z.of_nat i) card).
Proof.
  intros Hi. unfold cells_of, enumerate.
  change (map ?f ?l) with (f <$> l). rewrite list_lookup_fmap.
  by rewrite (enumerate_from_lookup 0 _ _ _ Hi).
Qed.

Lemma cells_of_cards (h : Q) (i : Z) (cards : list LabelCard) :
  map card_of (cells_of h (enumerate_from i cards)) = map Some cards.
Proof.
  revert i. induction cards as [|card cards IH]; intros i; simpl; [reflexivity|].
  f_equal. apply IH.
Qed.

Lemma cells_of_labels (h : Q) (items : list (Z * LabelCard)) :
  Forall is_label_cell (cells_of h items).
Proof. induction items; simpl; constructor; [exact I|done]. Qed.

Lemma loop_after_all (h : Q) (cards : list LabelCard) :
  foldl (label_step h) (new_canvas, false) (enumerate cards)
  = loop_after h cards (length cards).
Proof. unfold loop_after. by rewrite firstn_all. Qed.

Lemma assemble_spec (cards : list LabelCard) (summary : list (string * Z)) :
  assemble cards summary = label_pages cards ++ [[DineInSummary summary 612 792]].
Proof.
  destruct cards as [|card cards]; [reflexivity|].
  set (cs := card :: cards).
  change (label_pages cs) with
    (pages (loop_after 792 cs (length cs)).1
     ++ [current (loop_after 792 cs (length cs)).1]).
  unfold assemble. cbn [Layout.letter]. rewrite loop_after_all.
  pose proof (loop_after_flag 792 cs (length cs) ltac:(lia)) as Hflag.
  destruct (loop_after 792 cs (length cs)) as [pdf flag]. cbn [fst snd] in *.
  assert (flag = true) as ->
    by (rewrite Hflag; apply bool_decide_eq_true; simpl; lia).
  unfold save, draw, showPage. reflexivity.
Qed.

Lemma label_pages_spec (cards : list LabelCard) :
  Forall (fun pg => (1 <= length pg <= 30)%nat /\ Forall is_label_cell pg)
         (label_pages cards)
  /\ concat (label_pages cards) = cells_of 792 (enumerate cards)
  /\ length (label_pages cards) = ((length cards + 29) / 30)%nat
  /\ forall i card, cards !! i = Some card ->
       exists pg, label_pages cards !! (i / 30)%nat = Some pg
                  /\ pg !! (i mod 30)%nat = Some (layout_cell 792 (Z.of_nat i) card).
Proof.
  destruct cards as [|c0 cards0]; [repeat split; [constructor|done]|].
  set (cards := c0 :: cards0).
  pose proof (layout_loop_invariant 792 cards (length cards) ltac:(lia)) as Hinv.
  pose proof (layout_invariant_count 792 cards (length cards) _ ltac:(lia) Hinv)
    as Hcount.
  change (label_pages cards) with
    (pages (loop_after 792 cards (length cards)).1
     ++ [current (loop_after 792 cards (length cards)).1]).
  set (pdf := (loop_after 792 cards (length cards)).1) in *.
  destruct Hinv as (Hfull & Hcat & _ & Hopen).
  rewrite firstn_all in Hcat.
  specialize (Hopen ltac:(simpl; lia)).
  assert (Forall is_label_cell (concat (pages pdf ++ [current pdf]))) as Hlabels
    by (rewrite Hcat; apply cells_of_labels).
  split; [|split; [exact Hcat|split]].
  - apply Forall_forall. intros pg Hpg. split.
    + apply elem_of_app in Hpg as [Hpg|Hpg%list_elem_of_singleton].
      * rewrite Forall_forall in Hfull. rewrite (Hfull _ Hpg). lia.
      * subst pg. exact Hopen.
    + by apply (Forall_concat_elem _ _ _ Hlabels).
  - rewrite length_app. change (length [current pdf]) with 1%nat.
    apply Nat.div_unique with (r := (length (current pdf) - 1)%nat); lia.
  - intros i card Hi. unfold Page in *.
    destruct (lookup_concat_uniform 30 (pages pdf) (current pdf) i) as (pg & Hpg & Hlook).
    + lia.
    + exact Hfull.
    + lia.
    + rewrite Hcat. unfold cells_of, enumerate.
      rewrite length_map, enumerate_from_length. by apply lookup_lt_Some in Hi.
    + exists pg. split; [exact Hpg|].
      rewrite Hlook, Hcat. by apply cells_of_lookup.
Qed.




Lemma build_labels_pdf_Ok (dataframe : DataFrame) (document : list Page) :
  build_labels_pdf dataframe = Ok document ->
  exists cards summary,
    _prepare_label_cards dataframe = Ok (cards, summary)
    /\ document = assemble cards summary.
Proof.
  unfold build_labels_pdf.
  destruct (_prepare_label_cards dataframe) as [e|[cards summary]]; simpl;
    [discriminate|].
  intros [= <-]. eauto.
Qed.

(** C7. A document is its label pages followed by one summary page: the
    label pages hold label cells only, between 1 and 30 each, which read in
    order are the cards; the summary page holds the dine-in summary only,
    and is there when there is no card at all. *)
Theorem label_pages_then_summary_page (dataframe : DataFrame) (document : list Page) :
  build_labels_pdf dataframe = Ok document ->
  exists cards summary,
    _prepare_label_cards dataframe = Ok (cards, summary)
    /\ document = label_pages cards ++ [[DineInSummary summary 612 792]]
    /\ Forall (fun pg => (1 <= length pg <= 30)%nat /\ Forall is_label_cell pg)
              (label_pages cards)
    /\ map card_of (concat (label_pages cards)) = map Some cards
    /\ length (label_pages cards) = ((length cards + 29) / 30)%nat
    /\ (cards = [] -> document = [[DineInSummary summary 612 792]])
    /\ primitives (DineInSummary summary 612 792) ≠ [].
Proof.
  intros (cards & summary & Hprep & ->)%build_labels_pdf_Ok.
  exists cards, summary.
  destruct (label_pages_spec cards) as (Hpages & Hcat & Hlen & _).
  split; [exact Hprep|]. split; [apply assemble_spec|].
  split; [exact Hpages|]. split; [|split; [exact Hlen|split]].
  - rewrite Hcat. apply cells_of_cards.
  - intros ->. reflexivity.
  - discriminate.
Qed.

(** A workbook of two rows. *)
Lemma label_pages_then_summary_page_witness :
  exists cards summary,
    _prepare_label_cards
      {| columns := ["Name"; "Carry Out"; "Dine In"];
         rows := [["Ann"; "3"; "0"]; ["Bo"; "0"; "2"]] |} = Ok (cards, summary)
    /\ length (label_pages cards) = ((length cards + 29) / 30)%nat.
Proof.
  destruct (label_pages_then_summary_page
    {| columns := ["Name"; "Carry Out"; "Dine In"];
       rows := [["Ann"; "3"; "0"]; ["Bo"; "0"; "2"]] |} _ eq_refl)
    as (cards & summary & Hprep & _ & _ & _ & Hlen & _).
  exact (ex_intro _ cards (ex_intro _ summary (conj Hprep Hlen))).
Defined.

(** Scenario 3 of the design document: no carry-out at all. *)
Example only_dine_in :
  build_labels_pdf
    {| columns := ["name"; "carryout"; "dinein"];
       rows := [["Ann"; "0"; "2"]; ["Bo"; ""; "0"]] |}
  = Ok [[DineInSummary [("Ann", 2)] 612 792]].
Proof. reflexivity. Qed.

(** ** The aggregator inside [_prepare_label_cards] *)

Lemma filter_map_comm {A B} (f : A -> B) (P : B -> Prop)
    `{!forall y, Decision (P y)} (l : list A) :
  filter P (map f l) = map f (filter (fun x => P (f x)) l).
Proof.
  induction l as [|x l IH]; [reflexivity|]. cbn [map].
  rewrite !filter_cons. case_decide; cbn [map]; by rewrite IH.
Qed.

(** With each canonical label on one column of the renamed frame,
    [_prepare_label_cards] is the aggregator run on the canonical rows,
    followed by the sequencer and the summary. *)
Lemma prepare_label_cards_rows (dataframe normalized : DataFrame)
    (name_col carry_col dine_col : nat) :
  _normalize_orders_dataframe dataframe = Ok normalized ->
  getitem normalized "name" AttributeError = Ok name_col ->
  getitem normalized "carry_out" TypeError = Ok carry_col ->
  getitem normalized "dine_in" TypeError = Ok dine_col ->
  _prepare_label_cards dataframe =
  (aggregated ← aggregate_orders (canonical_rows normalized name_col carry_col dine_col);
   Ok (sequence_label_cards aggregated, dine_summary aggregated)).
Proof.
  intros Hn Hname Hcarry Hdine.
  unfold _prepare_label_cards. rewrite Hn. cbn [mbind result_bind].
  rewrite Hname. cbn [mbind result_bind].
  rewrite Hcarry. cbn [mbind result_bind].
  unfold aggregate_orders, canonical_rows.
  rewrite filter_map_comm, !map_map. cbn [row_name row_carry_out row_dine_in].
  destruct (traverse Numeric.coerce (map (cell carry_col) _)) as [e|carry];
    cbn [mbind result_bind]; [reflexivity|].
  rewrite Hdine. cbn [mbind result_bind].
  destruct (traverse Numeric.coerce (map (cell dine_col) _)) as [e|dine];
    cbn [mbind result_bind]; reflexivity.
Qed.

Example prepare_label_cards_rows_ex :
  _prepare_label_cards
    {| columns := ["Customer"; "Carry-Out"; "Dine In"; "Notes"];
       rows := [["Bob"; "5"; "1"; "call first"]] |}
  = Ok ([primary_card "Bob" 5; continuation_card "Bob"; continuation_card "Bob";
         pack_summary_card 2 1],
        [("Bob", 1)]).
Proof. reflexivity. Qed.

(** Two columns that end up with one canonical label make the aggregation
    raise. *)
Example duplicate_label_raises :
  _prepare_label_cards
    {| columns := ["name"; "Name"; "carryout"; "dinein"]; rows := [] |}
  = Raise AttributeError.
Proof. reflexivity. Qed.

(** * Further properties of the code *)

(** ** File names *)

Lemma append_nil_l (t : string) : "" +:+ t = t.
Proof. reflexivity. Qed.

Lemma append_cons (c : ascii) (s t : string) : String c s +:+ t = String c (s +:+ t).
Proof. reflexivity. Qed.

Lemma rsplit_once_None (sep : ascii) (s : string) :
  rsplit_once sep s = None <-> occurs sep s = false.
Proof.
  induction s as [|c s IH]; simpl; [done|].
  destruct (rsplit_once sep s) as [[before after]|].
  - split; [done|]. intros [_ H]%orb_false_iff. apply IH in H. done.
  - destruct (Ascii.eqb c sep); simpl; [done|]. split; [|done].
    intros _. by apply IH.
Qed.

Lemma rsplit_once_Some (sep : ascii) (s before after : string) :
  rsplit_once sep s = Some (before, after) <->
  s = before +:+ String sep after /\ occurs sep after = false.
Proof.
  revert before. induction s as [|c s IH]; intros before; simpl.
  - split; [done|]. intros [H _]. by destruct before.
  - destruct (rsplit_once sep s) as [[b a]|] eqn:Hs.
    + split.
      * intros [= <- <-]. destruct (proj1 (IH b) eq_refl) as [-> Ha].
        by rewrite append_cons.
      * intros [Heq Ha]. destruct before as [|c' before].
        -- rewrite append_nil_l in Heq. injection Heq as -> ->.
           apply rsplit_once_None in Ha. congruence.
        -- rewrite append_cons in Heq. injection Heq as -> Heq.
           pose proof (proj2 (IH before) (conj Heq Ha)) as H.
           by injection H as -> ->.
    + apply rsplit_once_None in Hs.
      destruct (Ascii.eqb_spec c sep) as [->|Hne].
      * split.
        -- intros [= <- <-]. by rewrite append_nil_l.
        -- intros [Heq Ha]. destruct before as [|c' before].
           ++ rewrite append_nil_l in Heq. by injection Heq as ->.
           ++ rewrite append_cons in Heq. injection Heq as -> Heq.
              exfalso. rewrite Heq in Hs. clear -Hs.
              induction before as [|c before IH]; simpl in Hs.
              ** rewrite Ascii.eqb_refl in Hs. done.
              ** apply orb_false_iff in Hs as [_ Hs]. auto.
      * split; [done|]. intros [Heq Ha]. destruct before as [|c' before].
        -- rewrite append_nil_l in Heq. by injection Heq as ->.
        -- rewrite append_cons in Heq. injection Heq as -> Heq.
           exfalso. rewrite Heq in Hs. clear -Hs.
           induction before as [|c before IH]; simpl in Hs.
           ++ rewrite Ascii.eqb_refl in Hs. done.
           ++ apply orb_false_iff in Hs as [_ Hs]. auto.
Qed.

Lemma lower_char_dot (c : ascii) :
  Ascii.eqb (Py.lower_char c) "." = Ascii.eqb c ".".
Proof. by destruct c as [[] [] [] [] [] [] [] []]. Qed.

Lemma occurs_dot_lower (s : string) : occurs "." (Py.lower s) = occurs "." s.
Proof.
  induction s as [|c s IH]; simpl; [done|]. by rewrite lower_char_dot, IH.
Qed.

Lemma allowed_extension (ext : string) :
  Py.lower ext ∈ ALLOWED_EXTENSIONS <-> Py.lower ext = "xls" \/ Py.lower ext = "xlsx".
Proof.
  unfold ALLOWED_EXTENSIONS. rewrite elem_of_union, !elem_of_singleton. tauto.
Qed.

(** A file name is accepted exactly when it has a dot and what follows its
    last dot is xls or xlsx in any mix of upper and lower case. *)
Theorem allowed_file_spec (name : string) :
  allowed_file name = true <->
  exists stem ext,
    name = stem +:+ "." +:+ ext
    /\ (Py.lower ext = "xls" \/ Py.lower ext = "xlsx").
Proof.
  unfold allowed_file, rpartition.
  destruct (rsplit_once "." name) as [[before after]|] eqn:Hsplit.
  - apply rsplit_once_Some in Hsplit as [-> Hafter].
    simpl. rewrite bool_decide_eq_true, allowed_extension. split.
    + intros Hext. exists before, after. by split.
    + intros (stem & ext & Heq & Hext).
      assert (occurs "." ext = false) as Hdot.
      { rewrite <- occurs_dot_lower. by destruct Hext as [-> | ->]. }
      pose proof (proj2 (rsplit_once_Some "." _ stem ext) (conj Heq Hdot)) as H1.
      pose proof (proj2 (rsplit_once_Some "." _ before after) (conj eq_refl Hafter))
        as H2.
      rewrite H1 in H2. by injection H2 as -> ->.
  - simpl. split; [done|]. intros (stem & ext & Heq & Hext).
    assert (occurs "." ext = false) as Hdot.
    { rewrite <- occurs_dot_lower. by destruct Hext as [-> | ->]. }
    pose proof (proj2 (rsplit_once_Some "." _ stem ext) (conj Heq Hdot)) as H1.
    congruence.
Qed.

(** Only the text after the last dot counts, and a name that is nothing
    but an extension passes. *)
Example allowed_file_examples :
  allowed_file "orders.XLSX" = true
  /\ allowed_file "orders.v2.xls" = true
  /\ allowed_file ".xlsx" = true
  /\ allowed_file "orders.xlsx.bak" = false
  /\ allowed_file "xlsx" = false
  /\ allowed_file "orders.xlsx " = false.
Proof. repeat split; reflexivity. Qed.

(** ** Labels and pack totals *)

Lemma packed_nonneg (row : AggregatedOrder) :
  0 <= packed_doubles row /\ 0 <= packed_singles row.
Proof.
  unfold packed_doubles, packed_singles.
  pose proof (Z.div_mod (carry_out row) 2 ltac:(lia)) as H5.
  pose proof (Z.mod_pos_bound (carry_out row) 2 ltac:(lia)) as H6.
  destruct (Z.ltb_spec 0 (carry_out row)); lia.
Qed.

Lemma spec_cards_for_packed (row : AggregatedOrder) :
  Z.of_nat (length (spec_cards_for row)) = packed_doubles row + packed_singles row.
Proof.
  rewrite spec_cards_for_length.
  unfold _required_label_count, packed_doubles, packed_singles.
  destruct (Z.leb_spec (carry_out row) 0); destruct (Z.ltb_spec 0 (carry_out row)); lia.
Qed.

Lemma flat_map_cards_packed (l : list AggregatedOrder) :
  Z.of_nat (length (flat_map spec_cards_for l))
  = sumZ (map packed_doubles l) + sumZ (map packed_singles l)
  /\ 0 <= sumZ (map packed_doubles l) /\ 0 <= sumZ (map packed_singles l).
Proof.
  induction l as [|row l (IH & Hd & Hs)]; simpl; [lia|].
  rewrite length_app, Nat2Z.inj_add, IH, spec_cards_for_packed.
  pose proof (packed_nonneg row). lia.
Qed.

(** The two numbers on the pack summary add up to the number of label
    cards printed before it: every double and every single has one card.
    Without any carry-out there is no card at all, otherwise the summary
    card is one more. *)
Theorem pack_totals_count_the_cards (aggregated : list AggregatedOrder) :
  let st := sequencer_loop aggregated in
  Z.of_nat (length (label_cards st)) = total_doubles st + total_singles st
  /\ Z.of_nat (length (sequence_label_cards aggregated)) =
     (if decide (total_doubles st + total_singles st = 0) then 0
      else total_doubles st + total_singles st + 1).
Proof.
  intros st. unfold st.
  rewrite sequence_label_cards_spec, sequencer_loop_spec. simpl.
  destruct (flat_map_cards_packed aggregated) as (Hlen & Hd & Hs).
  split; [exact Hlen|].
  rewrite length_app, Nat2Z.inj_add, Hlen.
  repeat case_decide; simpl; lia.
Qed.

(** ** Nothing is lost in aggregation *)






(** ** The order of the rows does not matter *)

Lemma sumZ_Permutation (l l' : list Z) : l ≡ₚ l' -> sumZ l = sumZ l'.
Proof. induction 1; simpl; lia. Qed.

Lemma names_above (g : AggregatedOrder) (groups : list AggregatedOrder) :
  Forall (name_lt g) groups -> order_name g ∉ map order_name groups.
Proof.
  intros Hall (y & Heq & Hy)%list_elem_of_fmap.
  rewrite Forall_forall in Hall. apply Hall, compare_Lt_ne in Hy. congruence.
Qed.

(** Groups in ascending order are determined by their names and totals. *)
Lemma sorted_groups_ext (l1 l2 : list AggregatedOrder) :
  StronglySorted name_lt l1 -> StronglySorted name_lt l2 ->
  (forall n, n ∈ map order_name l1 <-> n ∈ map order_name l2) ->
  (forall n, total_of carry_out n l1 = total_of carry_out n l2) ->
  (forall n, total_of dine_in n l1 = total_of dine_in n l2) ->
  l1 = l2.
Proof.
  intros H1. revert l2.
  induction H1 as [|g1 t1 Ht1 IH Hall1]; intros l2 H2 Hnames Hc Hd.
  - destruct l2 as [|g2 t2]; [reflexivity|].
    exfalso. eapply elem_of_nil, (Hnames (order_name g2)). simpl. by left.
  - destruct H2 as [|g2 t2 Ht2 Hall2].
    { exfalso. eapply elem_of_nil, (Hnames (order_name g1)). simpl. by left. }
    assert (order_name g1 = order_name g2) as Hname.
    { assert (order_name g1 ∈ map order_name (g2 :: t2)) as Hin1
        by (apply Hnames; simpl; by left).
      assert (order_name g2 ∈ map order_name (g1 :: t1)) as Hin2
        by (apply Hnames; simpl; by left).
      simpl in Hin1, Hin2.
      apply elem_of_cons in Hin1 as [Heq|Hin1]; [exact Heq|].
      apply elem_of_cons in Hin2 as [Heq|Hin2]; [by symmetry|].
      exfalso.
      apply list_elem_of_fmap in Hin1 as (y1 & Hy1 & Hin1).
      apply list_elem_of_fmap in Hin2 as (y2 & Hy2 & Hin2).
      rewrite Forall_forall in Hall1, Hall2.
      apply Hall2 in Hin1. apply Hall1 in Hin2. unfold name_lt in Hin1, Hin2.
      rewrite <- Hy1 in Hin1. rewrite <- Hy2 in Hin2.
      pose proof (compare_Lt_trans _ _ _ Hin1 Hin2) as Hcyc.
      by rewrite compare_refl in Hcyc. }
    assert (g1 = g2) as <-.
    { specialize (Hc (order_name g1)). specialize (Hd (order_name g1)).
      rewrite (total_of_sorted carry_out (g1 :: t1) g1) in Hc
        by (try constructor; done || by left).
      rewrite (total_of_sorted dine_in (g1 :: t1) g1) in Hd
        by (try constructor; done || by left).
      rewrite Hname in Hc, Hd.
      rewrite (total_of_sorted carry_out (g2 :: t2) g2) in Hc
        by (try constructor; done || by left).
      rewrite (total_of_sorted dine_in (g2 :: t2) g2) in Hd
        by (try constructor; done || by left).
      destruct g1, g2. simpl in *. congruence. }
    f_equal. apply IH; [exact Ht2| | |].
    + intros n. split; intros Hn.
      * assert (n ∈ map order_name (g1 :: t1)) as Hn' by (simpl; by right).
        apply Hnames in Hn'. simpl in Hn'.
        apply elem_of_cons in Hn' as [->|Hn']; [|exact Hn'].
        by apply names_above in Hall1.
      * assert (n ∈ map order_name (g1 :: t2)) as Hn' by (simpl; by right).
        apply Hnames in Hn'. simpl in Hn'.
        apply elem_of_cons in Hn' as [->|Hn']; [|exact Hn'].
        by apply names_above in Hall2.
    + intros n. specialize (Hc n). rewrite !total_of_cons in Hc. lia.
    + intros n. specialize (Hd n). rewrite !total_of_cons in Hd. lia.
Qed.

Lemma groupby_sum_Permutation (records records' : list (string * Z * Z)) :
  records ≡ₚ records' -> groupby_sum records = groupby_sum records'.
Proof.
  intros Hperm.
  rewrite (groupby_sum_fold records), (groupby_sum_fold records').
  apply sorted_groups_ext.
  - apply group_fold_sorted. constructor.
  - apply group_fold_sorted. constructor.
  - intros n. rewrite !group_fold_names.
    assert (forall l l' : list string, l ≡ₚ l' -> n ∈ l <-> n ∈ l') as Hiff.
    { intros l l' Hp. rewrite !list_elem_of_In.
      split; apply Permutation_in; [done|by symmetry]. }
    by rewrite (Hiff _ _ (Permutation_map (fun r => r.1.1) Hperm)).
  - intros n.
    destruct (group_fold_total records [] n) as [-> _].
    destruct (group_fold_total records' [] n) as [-> _].
    f_equal. apply sumZ_Permutation, Permutation_map. by rewrite Hperm.
  - intros n.
    destruct (group_fold_total records [] n) as [_ ->].
    destruct (group_fold_total records' [] n) as [_ ->].
    f_equal. apply sumZ_Permutation, Permutation_map. by rewrite Hperm.
Qed.

Lemma aggregate_orders_Ok_cells (records : list CanonicalOrderRow)
    (aggregated : list AggregatedOrder) (r : CanonicalOrderRow) :
  aggregate_orders records = Ok aggregated -> r ∈ records -> named r ->
  (exists n, Numeric.coerce (row_carry_out r) = Ok n)
  /\ (exists n, Numeric.coerce (row_dine_in r) = Ok n).
Proof.
  unfold aggregate_orders. fold named. intros H Hr Hnamed.
  destruct (traverse Numeric.coerce (map row_carry_out (filter named records)))
    as [e|carry] eqn:Hc; simpl in H; [discriminate|].
  destruct (traverse Numeric.coerce (map row_dine_in (filter named records)))
    as [e|dine] eqn:Hd; simpl in H; [discriminate|].
  assert (r ∈ filter named records) as Hkept by (by apply list_elem_of_filter).
  apply traverse_Ok in Hc, Hd. split.
  - assert (row_carry_out r ∈ map row_carry_out (filter named records)) as Hin
      by (apply list_elem_of_fmap; eauto).
    apply list_elem_of_lookup in Hin as [i Hi].
    destruct (Forall2_lookup_l _ _ _ _ _ Hc Hi) as (n & _ & Hn). eauto.
  - assert (row_dine_in r ∈ map row_dine_in (filter named records)) as Hin
      by (apply list_elem_of_fmap; eauto).
    apply list_elem_of_lookup in Hin as [i Hi].
    destruct (Forall2_lookup_l _ _ _ _ _ Hd Hi) as (n & _ & Hn). eauto.
Qed.

Lemma aggregate_orders_Permutation_Ok
    (records records' : list CanonicalOrderRow) (aggregated : list AggregatedOrder) :
  records ≡ₚ records' -> aggregate_orders records = Ok aggregated ->
  aggregate_orders records' = Ok aggregated.
Proof.
  intros Hperm Hagg.
  destruct (aggregate_orders records') as [e|aggregated'] eqn:Hagg'.
  - exfalso.
    apply aggregate_orders_raises in Hagg'
      as (_ & r & negative & Hr & Hnamed & Hinf).
    rewrite <- Hperm in Hr.
    destruct (aggregate_orders_Ok_cells _ _ r Hagg Hr Hnamed) as [[n Hn] [m Hm]].
    pose proof (coerce_cases (row_carry_out r)) as Hcc.
    pose proof (coerce_cases (row_dine_in r)) as Hcd.
    destruct Hinf as [Hinf|Hinf]; [rewrite Hinf in Hcc|rewrite Hinf in Hcd]; congruence.
  - f_equal. apply aggregate_orders_Ok in Hagg, Hagg'. subst.
    symmetry. apply groupby_sum_Permutation.
    apply Permutation_map. by rewrite Hperm.
Qed.

(** Shuffling the rows of the sheet changes nothing: the aggregate is the
    same, and so is the exception when the aggregator raises. *)
Theorem aggregation_ignores_row_order (records records' : list CanonicalOrderRow) :
  records ≡ₚ records' -> aggregate_orders records = aggregate_orders records'.
Proof.
  intros Hperm.
  destruct (aggregate_orders records) as [e|aggregated] eqn:Hagg.
  - destruct (aggregate_orders records') as [e'|aggregated'] eqn:Hagg'.
    + apply aggregate_orders_raises in Hagg as [-> _].
      apply aggregate_orders_raises in Hagg' as [-> _]. reflexivity.
    + symmetry in Hperm.
      rewrite (aggregate_orders_Permutation_Ok _ _ _ Hperm Hagg') in Hagg.
      discriminate.
  - symmetry. by apply (aggregate_orders_Permutation_Ok records).
Qed.

(** Two rows of one name around a row of another, swapped. *)
Lemma aggregation_ignores_row_order_witness :
  aggregate_orders
    [ {| row_name := "Bo"; row_carry_out := "1"; row_dine_in := "0" |};
      {| row_name := "Ann"; row_carry_out := "2"; row_dine_in := "1" |};
      {| row_name := "Bo"; row_carry_out := "4"; row_dine_in := "x" |} ]
  = aggregate_orders
    [ {| row_name := "Ann"; row_carry_out := "2"; row_dine_in := "1" |};
      {| row_name := "Bo"; row_carry_out := "1"; row_dine_in := "0" |};
      {| row_name := "Bo"; row_carry_out := "4"; row_dine_in := "x" |} ].
Proof.
  apply aggregation_ignores_row_order. apply perm_swap.
Defined.

(** ** Which header is taken *)

Lemma header_lookup_last (cols : list string) (key col : string) :
  header_lookup cols !! key = Some col ->
  exists l1 l2, cols = l1 ++ col :: l2 /\ header_key col = key
                /\ Forall (fun c => header_key c ≠ key) l2.
Proof.
  induction cols as [|c cols IH] using rev_ind.
  - unfold header_lookup. simpl. by rewrite lookup_empty.
  - rewrite header_lookup_snoc.
    destruct (decide (header_key c = key)) as [Heq|Hne].
    + rewrite Heq, lookup_insert_eq. intros [= <-].
      exists cols, []. by repeat split.
    + rewrite lookup_insert_ne by done. intros H.
      destruct (IH H) as (l1 & l2 & -> & Hk & Hall).
      exists l1, (l2 ++ [c]). rewrite <- app_assoc. split; [done|]. split; [done|].
      apply Forall_app. split; [done|]. by repeat constructor.
Qed.

Lemma rename_loop_keeps (lookup : gmap string string) (aliases : list (string * string))
    (rename_map : gmap string string) (field col : string) :
  rename_map !! field = Some col ->
  foldl (rename_step lookup) rename_map aliases !! field = Some col.
Proof.
  revert rename_map. induction aliases as [|[a f] aliases IH]; intros rm H; [done|].
  simpl. apply IH. unfold rename_step.
  destruct (lookup !! a) as [c|]; [|done].
  destruct (rm !! f) as [old|] eqn:Hf; [done|].
  rewrite lookup_insert_ne; [done|]. congruence.
Qed.

Lemma rename_loop_first (lookup : gmap string string) (aliases : list (string * string))
    (rename_map : gmap string string) (field col : string) :
  rename_map !! field = None ->
  foldl (rename_step lookup) rename_map aliases !! field = Some col ->
  exists before alias after,
    aliases = before ++ (alias, field) :: after
    /\ lookup !! alias = Some col
    /\ forall a, (a, field) ∈ before -> lookup !! a = None.
Proof.
  revert rename_map. induction aliases as [|[a f] aliases IH]; intros rm Hnone; simpl.
  - congruence.
  - intros H.
    destruct (decide (f = field /\ is_Some (lookup !! a))) as [[-> [c Hc]]|Hnot].
    + exists [], a, aliases. split; [done|]. split.
      * rewrite Hc, Hnone in H.
        rewrite (rename_loop_keeps _ _ _ field c) in H by apply lookup_insert_eq.
        congruence.
      * by intros ? ?%elem_of_nil.
    + assert (rename_step lookup rm (a, f) !! field = None) as Hstill.
      { unfold rename_step. destruct (lookup !! a) as [c|] eqn:Hc; [|done].
        destruct (rm !! f) as [old|] eqn:Hf; [done|].
        rewrite lookup_insert_ne; [done|]. intros ->. apply Hnot. eauto. }
      destruct (IH _ Hstill H) as (before & alias & after & -> & Hl & Hall).
      exists ((a, f) :: before), alias, after. split; [done|]. split; [done|].
      intros a' [Heq|Hin]%elem_of_cons; [|auto].
      destruct (lookup !! a') eqn:Hc; [|done]. exfalso. apply Hnot.
      injection Heq as Ha Hf. subst. eauto.
Qed.

(** When several headers could serve a field, the one taken spells the
    earliest alias of the table that any header spells, and is the last of
    the headers that spell it. *)
Theorem first_alias_last_header (headers : list string) (field h : string) :
  build_rename_map (header_lookup headers) !! field = Some h ->
  exists before alias after l1 l2,
    column_aliases = before ++ (alias, field) :: after
    /\ (forall a c, (a, field) ∈ before -> c ∈ headers -> Py.lower (Py.strip c) ≠ a)
    /\ headers = l1 ++ h :: l2
    /\ Py.lower (Py.strip h) = alias
    /\ (forall c, c ∈ l2 -> Py.lower (Py.strip c) ≠ alias).
Proof.
  intros H. unfold build_rename_map in H.
  apply rename_loop_first in H as (before & alias & after & Hal & Hl & Hfirst);
    [|apply lookup_empty].
  apply header_lookup_last in Hl as (l1 & l2 & Hcols & Hkey & Hlast).
  exists before, alias, after, l1, l2.
  split; [exact Hal|]. split; [|split; [exact Hcols|split; [exact Hkey|]]].
  - intros a c Ha Hc Heq. specialize (Hfirst a Ha).
    destruct (header_lookup_is_Some headers c Hc) as [x Hx].
    unfold header_key in Hx. congruence.
  - intros c Hc. rewrite Forall_forall in Hlast. by apply Hlast.
Qed.

(** Customer and two spellings of Name: the last Name column is taken. *)
Lemma first_alias_last_header_witness :
  exists before alias after l1 l2,
    column_aliases = before ++ (alias, "name") :: after
    /\ (forall a c, (a, "name") ∈ before ->
          c ∈ ["Customer"; "name"; "NAME "; "carryout"; "dinein"] ->
          Py.lower (Py.strip c) ≠ a)
    /\ ["Customer"; "name"; "NAME "; "carryout"; "dinein"] = l1 ++ "NAME " :: l2
    /\ Py.lower (Py.strip "NAME ") = alias
    /\ (forall c, c ∈ l2 -> Py.lower (Py.strip c) ≠ alias).
Proof.
  apply (first_alias_last_header
           ["Customer"; "name"; "NAME "; "carryout"; "dinein"] "name" "NAME ").
  vm_compute. reflexivity.
Defined.

(** ** What normalisation does to the frame *)

Lemma alias_table_functional :
  Forall (fun p => Forall (fun q => p.1 = q.1 -> p.2 = q.2) column_aliases)
         column_aliases.
Proof. compute_done. Qed.

Lemma alias_table_fields :
  Forall (fun p => p.2 ∈ canonical_fields) column_aliases.
Proof. compute_done. Qed.

Lemma alias_functional (a f f' : string) :
  (a, f) ∈ column_aliases -> (a, f') ∈ column_aliases -> f = f'.
Proof.
  intros H1 H2. pose proof alias_table_functional as H.
  rewrite Forall_forall in H. specialize (H _ H1).
  rewrite Forall_forall in H. exact (H _ H2 eq_refl).
Qed.

Lemma alias_fields (a f : string) :
  (a, f) ∈ column_aliases -> f ∈ canonical_fields.
Proof.
  intros H1. pose proof alias_table_fields as H.
  rewrite Forall_forall in H. exact (H _ H1).
Qed.

Lemma rename_map_injective (headers : list string) (f f' h : string) :
  build_rename_map (header_lookup headers) !! f = Some h ->
  build_rename_map (header_lookup headers) !! f' = Some h ->
  f = f'.
Proof.
  intros [_ H1]%rename_map_Some [_ H2]%rename_map_Some.
  exact (alias_functional _ _ _ H1 H2).
Qed.

Lemma rename_map_field (headers : list string) (f h : string) :
  build_rename_map (header_lookup headers) !! f = Some h -> f ∈ canonical_fields.
Proof. intros [_ H1]%rename_map_Some. exact (alias_fields _ _ H1). Qed.

Section renames.
Variable rename_map : gmap string string.
Hypothesis injective :
  forall f f' h, rename_map !! f = Some h -> rename_map !! f' = Some h -> f = f'.

Lemma renames_fold (fields : list string) (m : gmap string string) (c f : string) :
  foldl (renames_step rename_map) m fields !! c = Some f <->
  (f ∈ fields /\ rename_map !! f = Some c)
  \/ (m !! c = Some f /\ forall f', f' ∈ fields -> rename_map !! f' ≠ Some c).
Proof.
  revert m. induction fields as [|k rest IH]; intros m; simpl.
  - split.
    + intros H. right. split; [done|]. by intros ? ?%elem_of_nil.
    + intros [[H _]|[H _]]; [by apply elem_of_nil in H|done].
  - rewrite IH. unfold renames_step.
    destruct (rename_map !! k) as [col|] eqn:Hk.
    + destruct (decide (col = c)) as [->|Hne].
      * rewrite lookup_insert_eq. split.
        -- intros [[Hin Hf]|[[= <-] _]]; left; (split; [|done]).
           ++ by right.
           ++ by left.
        -- intros [[Hin Hf]|[_ Hall]].
           ++ assert (f = k) as -> by (by eapply injective).
              destruct (decide (k ∈ rest)) as [Hrest|Hrest]; [by left|].
              right. split; [done|]. intros f' Hf' Hrm.
              assert (f' = k) as -> by (by eapply injective). done.
           ++ exfalso. apply (Hall k); [by left|done].
      * rewrite lookup_insert_ne by done. split.
        -- intros [[Hin Hf]|[Hm Hall]].
           ++ left. split; [by right|done].
           ++ right. split; [done|].
              intros f' [->|Hf']%elem_of_cons; [congruence|auto].
        -- intros [[Hin Hf]|[Hm Hall]].
           ++ apply elem_of_cons in Hin as [->|Hin]; [congruence|by left].
           ++ right. split; [done|]. intros f' Hf'. apply Hall. by right.
    + split.
      * intros [[Hin Hf]|[Hm Hall]].
        -- left. split; [by right|done].
        -- right. split; [done|].
           intros f' [->|Hf']%elem_of_cons; [congruence|auto].
      * intros [[Hin Hf]|[Hm Hall]].
        -- apply elem_of_cons in Hin as [->|Hin]; [congruence|by left].
        -- right. split; [done|]. intros f' Hf'. apply Hall. by right.
Qed.

Lemma renames_lookup (c f : string) :
  renames rename_map !! c = Some f <->
  f ∈ canonical_fields /\ rename_map !! f = Some c.
Proof.
  change (renames rename_map) with
    (foldl (renames_step rename_map) ∅ canonical_fields).
  rewrite renames_fold, lookup_empty. split; [|auto].
  intros [H|[H _]]; [exact H|discriminate].
Qed.
End renames.

Lemma normalize_Ok (df normalized : DataFrame) :
  _normalize_orders_dataframe df = Ok normalized ->
  normalized = rename df (renames (build_rename_map (header_lookup (columns df))))
  /\ forall f, f ∈ canonical_fields ->
       exists h, build_rename_map (header_lookup (columns df)) !! f = Some h.
Proof.
  unfold _normalize_orders_dataframe.
  destruct (missing_fields _) as [|f fs] eqn:Hm; [|discriminate].
  intros [= <-]. split; [reflexivity|]. intros f Hf.
  destruct (build_rename_map (header_lookup (columns df)) !! f) as [h|] eqn:Hrm;
    [eauto|].
  exfalso. eapply elem_of_nil. rewrite <- Hm. unfold missing_fields.
  apply list_elem_of_filter. split; [exact Hrm|exact Hf].
Qed.

Lemma relabel_field (headers : list string) (c f : string) :
  let rm := build_rename_map (header_lookup headers) in
  (rm !! f = Some c -> relabel (renames rm) c = f)
  /\ ((forall f', rm !! f' ≠ Some c) -> relabel (renames rm) c = c).
Proof.
  intros rm. unfold relabel. split.
  - intros Hf.
    assert (renames rm !! c = Some f) as ->; [|reflexivity].
    apply renames_lookup.
    + intros f1 f2 h. apply rename_map_injective.
    + split; [|exact Hf]. by eapply rename_map_field.
  - intros Hnone.
    destruct (renames rm !! c) as [f'|] eqn:Hr; [|reflexivity].
    apply renames_lookup in Hr as [_ Hr];
      [|intros f1 f2 h; apply rename_map_injective].
    by apply Hnone in Hr.
Qed.

(** Normalisation only relabels columns: the rows and the number of
    columns are those of the input; the column taken for a canonical field
    gets the name of the field and every other column keeps its header,
    so all three canonical labels are present afterwards. *)
Theorem normalisation_only_relabels (df normalized : DataFrame) :
  _normalize_orders_dataframe df = Ok normalized ->
  let rm := build_rename_map (header_lookup (columns df)) in
  rows normalized = rows df
  /\ length (columns normalized) = length (columns df)
  /\ (forall i c, columns df !! i = Some c ->
        (forall f, rm !! f = Some c -> columns normalized !! i = Some f)
        /\ ((forall f, rm !! f ≠ Some c) -> columns normalized !! i = Some c))
  /\ (forall f, f ∈ canonical_fields -> f ∈ columns normalized).
Proof.
  intros [-> Hall]%normalize_Ok rm. fold rm in Hall |- *.
  split; [reflexivity|]. split; [apply length_map|].
  assert (forall i c, columns df !! i = Some c ->
            columns (rename df (renames rm)) !! i = Some (relabel (renames rm) c))
    as Hcol.
  { intros i c Hi. unfold rename. simpl.
    change (map ?g ?l) with (g <$> l). rewrite list_lookup_fmap, Hi. reflexivity. }
  split.
  - intros i c Hi. rewrite (Hcol i c Hi).
    destruct (relabel_field (columns df) c c) as [_ Hkeep].
    split.
    + intros f Hf. f_equal.
      destruct (relabel_field (columns df) c f) as [Hset _]. by apply Hset.
    + intros Hnone. f_equal. by apply Hkeep.
  - intros f Hf. destruct (Hall f Hf) as [h Hh].
    destruct (rename_map_Some _ _ _ Hh) as [Hin _].
    apply list_elem_of_lookup in Hin as [i Hi].
    apply list_elem_of_lookup. exists i. rewrite (Hcol i h Hi). f_equal.
    destruct (relabel_field (columns df) h f) as [Hset _]. by apply Hset.
Qed.

(** A sheet with a notes column and capital headers. *)
Lemma normalisation_only_relabels_witness :
  rows {| columns := ["name"; "carry_out"; "Notes"; "dine_in"];
          rows := [["Ann"; "2"; "ring twice"; "0"]] |}
  = [["Ann"; "2"; "ring twice"; "0"]].
Proof.
  exact (proj1 (normalisation_only_relabels
    {| columns := ["NAME"; "Carry Out"; "Notes"; "Dine-In"];
       rows := [["Ann"; "2"; "ring twice"; "0"]] |}
    _ eq_refl)).
Defined.

(** ** Which exceptions the preparation raises *)


Lemma label_positions_absent (label : string) (cols : list string) (i : nat) :
  label ∉ cols -> label_positions label cols i = [].
Proof.
  revert i. induction cols as [|c cols IH]; intros i Hnot; simpl; [done|].
  case_decide as Hc.
  - exfalso. apply Hnot. subst. by left.
  - apply IH. intros Hin. apply Hnot. by right.
Qed.

Lemma label_positions_once (label : string) (l1 l2 : list string) (i : nat) :
  label ∉ l1 -> label ∉ l2 ->
  label_positions label (l1 ++ label :: l2) i = [(i + length l1)%nat].
Proof.
  revert i. induction l1 as [|c l1 IH]; intros i H1 H2; simpl.
  - rewrite decide_True by done. rewrite label_positions_absent by done.
    f_equal. lia.
  - rewrite decide_False by (intros ->; apply H1; by left).
    rewrite IH; [f_equal; lia| |done]. intros Hin. apply H1. by right.
Qed.




(** ** Sheets with clean headers *)

Lemma taken_once_resolved (headers : list string) (field h : string) :
  taken_once headers field h ->
  build_rename_map (header_lookup headers) !! field = Some h.
Proof.
  intros (Hin & Hspell & Honly).
  destruct (build_rename_map (header_lookup headers) !! field) as [h'|] eqn:Hrm.
  - destruct (rename_map_Some _ _ _ Hrm) as [Hin' Hspell'].
    rewrite Forall_forall in Honly. f_equal. by apply Honly.
  - exfalso. apply rename_map_None in Hrm. apply Hrm.
    apply Exists_exists. eauto.
Qed.

Lemma getitem_renamed (df : DataFrame) (field h : string) (on_frame : exn) :
  let rm := build_rename_map (header_lookup (columns df)) in
  NoDup (columns df) ->
  rm !! field = Some h ->
  (forall c, c ∈ columns df -> relabel (renames rm) c = field -> c = h) ->
  exists i, getitem (rename df (renames rm)) field on_frame = Ok i
            /\ columns df !! i = Some h.
Proof.
  intros rm Hnodup Hrm Honly.
  destruct (rename_map_Some _ _ _ Hrm) as [Hin _].
  apply list_elem_of_split in Hin as (l1 & l2 & Hcols).
  rewrite Hcols in Hnodup.
  apply NoDup_app in Hnodup as (_ & Hl1 & Hl2%NoDup_cons).
  destruct Hl2 as [Hl2 _].
  assert (h ∉ l1) as Hnot1 by (intros Hh; apply (Hl1 h Hh); by left).
  exists (length l1). split.
  - unfold getitem, rename. cbn [columns]. fold (relabel (renames rm)).
    rewrite Hcols, map_app. cbn [map].
    destruct (relabel_field (columns df) h field) as [Hset _].
    fold rm in Hset. rewrite (Hset Hrm).
    rewrite label_positions_once.
    + by rewrite length_map.
    + intros (c & Hc & Hcin)%list_elem_of_fmap. apply Hnot1.
      assert (c = h) as <-; [|done].
      apply Honly; [|done]. rewrite Hcols. apply elem_of_app. by left.
    + intros (c & Hc & Hcin)%list_elem_of_fmap. apply Hl2.
      assert (c = h) as <-; [|done].
      apply Honly; [|done]. rewrite Hcols. apply elem_of_app. right. by right.
  - rewrite Hcols. by apply list_lookup_middle.
Qed.

Lemma relabel_to_field (headers : list string) (field h c : string) :
  let rm := build_rename_map (header_lookup headers) in
  taken_once headers field h ->
  (field = "name" \/ field ∉ headers) ->
  c ∈ headers -> relabel (renames rm) c = field -> c = h.
Proof.
  intros rm Honce Hliteral Hc Hrel.
  pose proof (taken_once_resolved _ _ _ Honce) as Hrm. fold rm in Hrm.
  unfold relabel in Hrel.
  destruct (renames rm !! c) as [f'|] eqn:Hr; simpl in Hrel.
  - subst f'. apply renames_lookup in Hr as [_ Hr];
      [|intros f1 f2 x; apply rename_map_injective].
    congruence.
  - subst c. destruct Hliteral as [->|Hnot]; [|done].
    destruct Honce as (_ & _ & Honly). rewrite Forall_forall in Honly.
    apply Honly; [done|]. unfold spells_alias. compute_done.
Qed.

(** On a sheet whose headers are distinct, none of them the bare label
    carry_out or dine_in, and on which each canonical field is spelled by
    one header only, the preparation is the aggregator run on the cells
    of those three columns, followed by the sequencer and the summary: the
    only exception left is the one for an infinite cell. *)
Theorem clean_headers_prepare (df : DataFrame) (h_name h_carry h_dine : string) :
  NoDup (columns df) ->
  taken_once (columns df) "name" h_name ->
  taken_once (columns df) "carry_out" h_carry ->
  taken_once (columns df) "dine_in" h_dine ->
  "carry_out" ∉ columns df ->
  "dine_in" ∉ columns df ->
  exists i j k,
    columns df !! i = Some h_name
    /\ columns df !! j = Some h_carry
    /\ columns df !! k = Some h_dine
    /\ _prepare_label_cards df =
       (aggregated ← aggregate_orders (canonical_rows df i j k);
        Ok (sequence_label_cards aggregated, dine_summary aggregated)).
Proof.
  intros Hnodup Hname Hcarry Hdine Hno_carry Hno_dine.
  set (rm := build_rename_map (header_lookup (columns df))).
  pose proof (taken_once_resolved _ _ _ Hname) as Rname.
  pose proof (taken_once_resolved _ _ _ Hcarry) as Rcarry.
  pose proof (taken_once_resolved _ _ _ Hdine) as Rdine.
  assert (_normalize_orders_dataframe df = Ok (rename df (renames rm))) as Hn.
  { rewrite normalize_cases. rewrite filter_none; [reflexivity|].
    apply Forall_forall. intros f Hf Hmissing. apply rename_map_None in Hmissing.
    apply list_elem_of_In in Hf. simpl in Hf.
    destruct Hf as [<-|[<-|[<-|[]]]]; congruence. }
  destruct (getitem_renamed df "name" h_name AttributeError Hnodup Rname)
    as (i & Hi & Hci).
  { intros c. apply relabel_to_field; [done|by left]. }
  destruct (getitem_renamed df "carry_out" h_carry TypeError Hnodup Rcarry)
    as (j & Hj & Hcj).
  { intros c. apply relabel_to_field; [done|by right]. }
  destruct (getitem_renamed df "dine_in" h_dine TypeError Hnodup Rdine)
    as (k & Hk & Hck).
  { intros c. apply relabel_to_field; [done|by right]. }
  exists i, j, k. split; [done|]. split; [done|]. split; [done|].
  exact (prepare_label_cards_rows df _ i j k Hn Hi Hj Hk).
Qed.

(** A sheet with a notes column between the three that count. *)
Lemma clean_headers_prepare_witness :
  exists i j k,
    ["Customer"; "Notes"; "Carry-Out"; " Dine In "] !! i = Some "Customer"
    /\ ["Customer"; "Notes"; "Carry-Out"; " Dine In "] !! j = Some "Carry-Out"
    /\ ["Customer"; "Notes"; "Carry-Out"; " Dine In "] !! k = Some " Dine In "
    /\ _prepare_label_cards
         {| columns := ["Customer"; "Notes"; "Carry-Out"; " Dine In "];
            rows := [["Ann"; "ring"; "3"; "1"]] |}
       = (aggregated ←
            aggregate_orders
              (canonical_rows
                 {| columns := ["Customer"; "Notes"; "Carry-Out"; " Dine In "];
                    rows := [["Ann"; "ring"; "3"; "1"]] |} i j k);
          Ok (sequence_label_cards aggregated, dine_summary aggregated)).
Proof.
  apply (clean_headers_prepare
    {| columns := ["Customer"; "Notes"; "Carry-Out"; " Dine In "];
       rows := [["Ann"; "ring"; "3"; "1"]] |}
    "Customer" "Carry-Out" " Dine In ").
  - compute_done.
  - compute_done.
  - compute_done.
  - compute_done.
  - compute_done.
  - compute_done.
Defined.

(** ** Cells on the sheet *)

Lemma inject_Z_bounds (n lo hi : Z) :
  lo <= n <= hi -> (inject_Z lo <= inject_Z n /\ inject_Z n <= inject_Z hi)%Q.
Proof. intros [H1 H2]. split; by rewrite <- Zle_Qle. Qed.

Lemma cell_inside_page (column_index row_index : Z) :
  0 <= column_index < 3 -> 0 <= row_index < 10 ->
  (0 <= Layout.label_origin_x column_index
   /\ Layout.label_origin_x column_index + Layout.LABEL_WIDTH <= 612
   /\ Layout.label_top 792 row_index <= 792
   /\ 0 <= Layout.label_top 792 row_index - Layout.LABEL_HEIGHT)%Q.
Proof.
  intros Hc Hr.
  destruct (inject_Z_bounds column_index 0 2 ltac:(lia)) as [Hc1 Hc2].
  destruct (inject_Z_bounds row_index 0 9 ltac:(lia)) as [Hr1 Hr2].
  unfold Layout.label_origin_x, Layout.label_top, Layout.PAGE_MARGIN_X,
    Layout.PAGE_MARGIN_Y, Layout.LABEL_WIDTH, Layout.LABEL_HEIGHT,
    Layout.HORIZONTAL_GAP, Layout.VERTICAL_GAP, Layout.inch.
  change (inject_Z 0) with 0%Q in *. change (inject_Z 2) with 2%Q in *.
  change (inject_Z 9) with 9%Q in *.
  repeat split; lra.
Qed.

Lemma draw_label_card_in_cell (label_top label_left : Q) (card : LabelCard) :
  Forall (text_in_cell label_top label_left) (draw_label_card label_top label_left card).
Proof.
  assert (forall font size y text,
            (label_top - 72 < y)%Q -> (y < label_top)%Q ->
            text_in_cell label_top label_left
              (DrawCentredString font size
                 (label_left + Layout.LABEL_WIDTH / 2)%Q y text)) as Hin.
  { intros font size y text Hlow Hhigh. simpl. split; [reflexivity|].
    unfold Layout.LABEL_HEIGHT, Layout.inch. split; lra. }
  unfold draw_label_card. cbv zeta.
  destruct (bool_decide (doubles card ≠ None) || bool_decide (singles card ≠ None))%bool;
    [|destruct (count card) as [n|]];
    repeat match goal with
           | |- Forall _ (_ :: _) => constructor
           | |- Forall _ [] => constructor
           end;
    apply Hin;
    try change (Layout.LABEL_HEIGHT / 2)%Q with (720 # 20)%Q;
    try change (inject_Z Layout.TITLE_FONT_SIZE / 2)%Q with (12 # 2)%Q;
    unfold Layout.CONTENT_PADDING, Layout.LABEL_HEIGHT, Layout.inch,
      Layout.TITLE_FONT_SIZE, Layout.BODY_FONT_SIZE, Layout.COUNT_FONT_SIZE, inject_Z;
    lra.
Qed.

Lemma inject_Z_succ_le (a b : Z) : a < b -> (inject_Z a + 1 <= inject_Z b)%Q.
Proof.
  intros Hlt. assert (a + 1 <= b) as Hle by lia.
  rewrite Zle_Qle, inject_Z_plus in Hle. exact Hle.
Qed.

Lemma columns_apart (c c' : Z) :
  c < c' ->
  (Layout.label_origin_x c + Layout.LABEL_WIDTH < Layout.label_origin_x c')%Q.
Proof.
  intros H%inject_Z_succ_le.
  unfold Layout.label_origin_x, Layout.PAGE_MARGIN_X, Layout.LABEL_WIDTH,
    Layout.HORIZONTAL_GAP, Layout.inch.
  lra.
Qed.

Lemma rows_apart (h : Q) (r r' : Z) :
  r < r' ->
  (Layout.label_top h r' <= Layout.label_top h r - Layout.LABEL_HEIGHT)%Q.
Proof.
  intros H%inject_Z_succ_le.
  unfold Layout.label_top, Layout.PAGE_MARGIN_Y, Layout.LABEL_HEIGHT,
    Layout.VERTICAL_GAP, Layout.inch.
  lra.
Qed.

Lemma document_cell (cards : list LabelCard) (summary : list (string * Z))
    (i : nat) (card : LabelCard) :
  cards !! i = Some card ->
  exists page,
    assemble cards summary !! (i / 30)%nat = Some page
    /\ page !! (i mod 30)%nat = Some (layout_cell 792 (Z.of_nat i) card).
Proof.
  intros Hi. destruct (label_pages_spec cards) as (_ & _ & _ & Hlook).
  destruct (Hlook i card Hi) as (pg & Hpg & Hcell).
  exists pg. rewrite assemble_spec. split; [|exact Hcell].
  rewrite lookup_app_l; [exact Hpg|]. by apply lookup_lt_Some in Hpg.
Qed.

Lemma position_bounds (i : Z) :
  0 <= (i mod 30) mod 3 < 3 /\ 0 <= (i mod 30) / 3 < 10.
Proof.
  pose proof (Z.mod_pos_bound i 30 ltac:(lia)) as Hp.
  pose proof (Z.mod_pos_bound (i mod 30) 3 ltac:(lia)) as Hc.
  pose proof (Z.div_mod (i mod 30) 3 ltac:(lia)) as Hr.
  lia.
Qed.

(** Every label is printed on the sheet: the cell of a card lies within
    the letter page, and each text drawn for the card is centred on the
    middle of its cell with its baseline between the cell's bottom and top
    edges. *)
Theorem label_cells_fit_the_page
    (cards : list LabelCard) (summary : list (string * Z)) (i : nat) (card : LabelCard) :
  cards !! i = Some card ->
  exists page label_top label_left,
    assemble cards summary !! (i / 30)%nat = Some page
    /\ page !! (i mod 30)%nat = Some (LabelCell label_top label_left card)
    /\ (0 <= label_left /\ label_left + Layout.LABEL_WIDTH <= 612
        /\ label_top <= 792 /\ 0 <= label_top - Layout.LABEL_HEIGHT)%Q
    /\ primitives (LabelCell label_top label_left card) ≠ []
    /\ Forall (text_in_cell label_top label_left)
              (primitives (LabelCell label_top label_left card)).
Proof.
  intros Hi. destruct (document_cell cards summary i card Hi) as (page & Hpage & Hcell).
  destruct (position_bounds (Z.of_nat i)) as [Hcol Hrow].
  exists page, (Layout.label_top 792 ((Z.of_nat i mod 30) / 3)),
    (Layout.label_origin_x ((Z.of_nat i mod 30) mod 3)).
  split; [exact Hpage|]. split; [exact Hcell|].
  split; [by apply cell_inside_page|]. split.
  - simpl. unfold draw_label_card. destruct (_ || _)%bool; [discriminate|].
    destruct (count card); discriminate.
  - apply draw_label_card_in_cell.
Qed.

(** The last card of a second page. *)
Lemma label_cells_fit_the_page_witness :
  exists page label_top label_left,
    assemble (replicate 60 (continuation_card "Ann")) [] !! 1%nat = Some page
    /\ page !! 29%nat = Some (LabelCell label_top label_left (continuation_card "Ann"))
    /\ (0 <= label_left /\ label_left + Layout.LABEL_WIDTH <= 612
        /\ label_top <= 792 /\ 0 <= label_top - Layout.LABEL_HEIGHT)%Q
    /\ primitives (LabelCell label_top label_left (continuation_card "Ann")) ≠ []
    /\ Forall (text_in_cell label_top label_left)
              (primitives (LabelCell label_top label_left (continuation_card "Ann"))).
Proof.
  exact (label_cells_fit_the_page
    (replicate 60 (continuation_card "Ann")) [] 59 (continuation_card "Ann") eq_refl).
Defined.

(** Two cards of one page never share paper: their cells are side by side
    with the gap between them, or one is below the other. *)
Theorem label_cells_do_not_overlap
    (cards : list LabelCard) (summary : list (string * Z))
    (i j : nat) (card_i card_j : LabelCard) :
  cards !! i = Some card_i -> cards !! j = Some card_j ->
  i ≠ j -> (i / 30 = j / 30)%nat ->
  exists page top_i left_i top_j left_j,
    assemble cards summary !! (i / 30)%nat = Some page
    /\ page !! (i mod 30)%nat = Some (LabelCell top_i left_i card_i)
    /\ page !! (j mod 30)%nat = Some (LabelCell top_j left_j card_j)
    /\ (left_i + Layout.LABEL_WIDTH < left_j
        \/ left_j + Layout.LABEL_WIDTH < left_i
        \/ top_j <= top_i - Layout.LABEL_HEIGHT
        \/ top_i <= top_j - Layout.LABEL_HEIGHT)%Q.
Proof.
  intros Hi Hj Hne Hpage.
  destruct (document_cell cards summary i card_i Hi) as (page & Hpi & Hci).
  destruct (document_cell cards summary j card_j Hj) as (page' & Hpj & Hcj).
  rewrite <- Hpage, Hpi in Hpj. injection Hpj as <-.
  exists page, (Layout.label_top 792 ((Z.of_nat i mod 30) / 3)),
    (Layout.label_origin_x ((Z.of_nat i mod 30) mod 3)),
    (Layout.label_top 792 ((Z.of_nat j mod 30) / 3)),
    (Layout.label_origin_x ((Z.of_nat j mod 30) mod 3)).
  split; [exact Hpi|]. split; [exact Hci|]. split; [exact Hcj|].
  assert (Z.of_nat i mod 30 ≠ Z.of_nat j mod 30) as Hpos.
  { pose proof (Nat.div_mod_eq i 30). pose proof (Nat.div_mod_eq j 30).
    assert (Z.of_nat i mod 30 = Z.of_nat (i mod 30)) as ->
      by (rewrite Nat2Z.inj_mod; reflexivity).
    assert (Z.of_nat j mod 30 = Z.of_nat (j mod 30)) as ->
      by (rewrite Nat2Z.inj_mod; reflexivity).
    lia. }
  set (p := Z.of_nat i mod 30) in *. set (q := Z.of_nat j mod 30) in *.
  pose proof (Z.div_mod p 3 ltac:(lia)) as Hp.
  pose proof (Z.div_mod q 3 ltac:(lia)) as Hq.
  destruct (Z.lt_trichotomy (p / 3) (q / 3)) as [Hr|[Hr|Hr]].
  - right. right. left. by apply rows_apart.
  - assert (p mod 3 ≠ q mod 3) as Hc by lia.
    destruct (Z.lt_trichotomy (p mod 3) (q mod 3)) as [Hc'|[Hc'|Hc']]; [|done|].
    + left. by apply columns_apart.
    + right. left. by apply columns_apart.
  - right. right. right. by apply rows_apart.
Qed.

(** Two neighbours in the first row. *)
Lemma label_cells_do_not_overlap_witness :
  exists page top_i left_i top_j left_j,
    assemble [primary_card "Ann" 3; continuation_card "Ann"] [] !! 0%nat = Some page
    /\ page !! 0%nat = Some (LabelCell top_i left_i (primary_card "Ann" 3))
    /\ page !! 1%nat = Some (LabelCell top_j left_j (continuation_card "Ann"))
    /\ (left_i + Layout.LABEL_WIDTH < left_j
        \/ left_j + Layout.LABEL_WIDTH < left_i
        \/ top_j <= top_i - Layout.LABEL_HEIGHT
        \/ top_i <= top_j - Layout.LABEL_HEIGHT)%Q.
Proof.
  apply (label_cells_do_not_overlap
    [primary_card "Ann" 3; continuation_card "Ann"] [] 0 1
    (primary_card "Ann" 3) (continuation_card "Ann")).
  - reflexivity.
  - reflexivity.
  - lia.
  - reflexivity.
Defined.

(** ** The upload route *)

Lemma empty_false (df : DataFrame) :
  empty df = false <-> columns df ≠ [] /\ rows df ≠ [].
Proof.
  unfold empty. destruct (columns df), (rows df); split;
    try done; intros [H1 H2]; done.
Qed.

Lemma allowed_file_named (name : string) : allowed_file name = true -> name ≠ "".
Proof. by intros H ->. Qed.

(** The route answers with a download exactly for a POST that carries a
    file with an accepted name, which the reader could parse into a frame
    with at least one column and one row, and from which the document could
    be built; the download is that document, as a PDF named labels.pdf.  A
    file name that passes the extension test is never empty, so the first
    test of the route is implied by the second. *)
Theorem index_download (request : Request) (document : list Page)
    (mimetype download_name : string) :
  index request = send_file document mimetype download_name <->
  method request = "POST"
  /\ mimetype = "application/pdf" /\ download_name = "labels.pdf"
  /\ exists upload dataframe,
       data_file request = Some upload
       /\ allowed_file (filename upload) = true
       /\ read_excel upload = Ok dataframe
       /\ columns dataframe ≠ [] /\ rows dataframe ≠ []
       /\ build_labels_pdf dataframe = Ok document.
Proof.
  unfold index. split.
  - destruct (String.eqb_spec (method request) "POST") as [Hm|Hm]; [|discriminate].
    destruct (data_file request) as [upload|]; [|discriminate].
    destruct (String.eqb_spec (filename upload) "") as [Hf|Hf]; [discriminate|].
    destruct (allowed_file (filename upload)) eqn:Hallowed; [|discriminate]. simpl.
    destruct (read_excel upload) as [e|dataframe] eqn:Hread; [discriminate|].
    destruct (empty dataframe) eqn:Hempty; [discriminate|].
    destruct (build_labels_pdf dataframe) as [e|doc] eqn:Hbuild; [discriminate|].
    intros [= <- <- <-]. apply empty_false in Hempty as [Hcols Hrows].
    split; [done|]. split; [done|]. split; [done|]. exists upload, dataframe. auto 10.
  - intros (Hm & -> & -> & upload & dataframe & Hfile & Hallowed & Hread
            & Hcols & Hrows & Hbuild).
    rewrite Hm, Hfile. simpl.
    destruct (String.eqb_spec (filename upload) "") as [Hf|Hf];
      [by apply allowed_file_named in Hallowed|].
    rewrite Hallowed, Hread. simpl.
    rewrite (proj2 (empty_false dataframe) (conj Hcols Hrows)), Hbuild. reflexivity.
Qed.

(** A sheet uploaded under a name in capitals. *)
Example index_example :
  index {| method := "POST";
           data_file := Some
             {| filename := "FRIDAY.XLSX";
                read_excel := Ok {| columns := ["Name"; "Carry Out"; "Dine In"];
                                    rows := [["Ann"; "0"; "2"]] |} |} |}
  = send_file [[DineInSummary [("Ann", 2)] 612 792]] "application/pdf" "labels.pdf".
Proof. reflexivity. Qed.

(** ** The order of the labels *)

Lemma spec_cards_for_elem (row : AggregatedOrder) (card : LabelCard) :
  card ∈ spec_cards_for row -> name card = order_name row /\ 0 < carry_out row.
Proof.
  unfold spec_cards_for. destruct (Z.ltb_spec 0 (carry_out row)) as [Hpos|Hnp].
  - intros [->|Hin]%elem_of_cons; [done|].
    apply elem_of_replicate in Hin as [-> _]. done.
  - by intros ?%elem_of_nil.
Qed.

Lemma flat_map_cards_elem (l : list AggregatedOrder) (card : LabelCard) :
  card ∈ flat_map spec_cards_for l <->
  exists row, row ∈ l /\ card ∈ spec_cards_for row.
Proof.
  rewrite list_elem_of_In, in_flat_map. split.
  - intros (row & Hrow & Hcard). exists row. by rewrite !list_elem_of_In.
  - intros (row & Hrow & Hcard). exists row. by rewrite <- !list_elem_of_In.
Qed.

Lemma same_name_sorted (n : string) (cards : list LabelCard) :
  Forall (fun card => name card = n) cards -> StronglySorted card_le cards.
Proof.
  induction 1 as [|card cards Hcard Hall IH]; constructor; [exact IH|].
  eapply Forall_impl; [exact Hall|]. intros other Hother.
  unfold card_le. by rewrite Hcard, Hother, compare_refl.
Qed.

Lemma cards_sorted (l : list AggregatedOrder) :
  StronglySorted name_lt l -> StronglySorted card_le (flat_map spec_cards_for l).
Proof.
  induction 1 as [|g groups _ IH Hall]; simpl; [constructor|].
  apply StronglySorted_app_2; [| |exact IH].
  - intros x1 x2 [Hx1 _]%spec_cards_for_elem
      (row & Hrow & [Hx2 _]%spec_cards_for_elem)%flat_map_cards_elem.
    rewrite Forall_forall in Hall. apply Hall in Hrow.
    unfold card_le, name_lt in *. by rewrite Hx1, Hx2, Hrow.
  - apply (same_name_sorted (order_name g)), Forall_forall.
    by intros card [Hname _]%spec_cards_for_elem.
Qed.

(** The labels come out in ascending order of name, those of one name
    together; a name has labels exactly when its carry-out total is above
    0. *)
Theorem labels_in_name_order
    (records : list CanonicalOrderRow) (aggregated : list AggregatedOrder) :
  aggregate_orders records = Ok aggregated ->
  let cards := label_cards (sequencer_loop aggregated) in
  StronglySorted card_le cards
  /\ (forall n, (exists card, card ∈ cards /\ name card = n) <->
        exists row, row ∈ aggregated /\ order_name row = n /\ 0 < carry_out row).
Proof.
  intros Hagg cards. unfold cards. rewrite sequencer_loop_spec. simpl.
  split; [by apply cards_sorted, (aggregate_orders_sorted records)|].
  intros n. split.
  - intros (card & (row & Hrow & Hcard)%flat_map_cards_elem & Hname).
    apply spec_cards_for_elem in Hcard as [Hcard Hpos].
    exists row. split; [done|]. split; [congruence|done].
  - intros (row & Hrow & Hname & Hpos).
    exists (primary_card (order_name row) (carry_out row)). split; [|done].
    apply flat_map_cards_elem. exists row. split; [done|].
    unfold spec_cards_for. rewrite (proj2 (Z.ltb_lt _ _) Hpos). by left.
Qed.

(** Three rows out of order, one name dining in only. *)
Lemma labels_in_name_order_witness :
  StronglySorted card_le
    [ primary_card "Ann" 1; primary_card "Cy" 3; continuation_card "Cy" ].
Proof.
  exact (proj1 (labels_in_name_order
    [ {| row_name := "Cy"; row_carry_out := "3"; row_dine_in := "0" |};
      {| row_name := "Bo"; row_carry_out := "0"; row_dine_in := "2" |};
      {| row_name := "Ann"; row_carry_out := "1"; row_dine_in := "0" |} ]
    _ eq_refl)).
Defined.

(** ** Trimmed names *)

Lemma append_nil_r (s : string) : s +:+ "" = s.
Proof. induction s as [|c s IH]; [done|]. by rewrite append_cons, IH. Qed.

Lemma append_assoc (s t u : string) : (s +:+ t) +:+ u = s +:+ (t +:+ u).
Proof. induction s as [|c s IH]; [done|]. by rewrite !append_cons, IH. Qed.

Lemma rev_app_spec (s t : string) : String.rev_app s t = String.rev s +:+ t.
Proof.
  revert t. induction s as [|c s IH]; intros t; [done|].
  unfold String.rev. simpl. rewrite (IH (String c t)), (IH (String c "")).
  by rewrite append_assoc.
Qed.

Lemma rev_cons (c : ascii) (s : string) :
  String.rev (String c s) = String.rev s +:+ String c "".
Proof. unfold String.rev at 1. simpl. apply rev_app_spec. Qed.

Lemma rev_append (s t : string) :
  String.rev (s +:+ t) = String.rev t +:+ String.rev s.
Proof.
  induction s as [|c s IH].
  - by rewrite append_nil_l, append_nil_r.
  - by rewrite append_cons, !rev_cons, IH, append_assoc.
Qed.

Lemma rev_involutive (s : string) : String.rev (String.rev s) = s.
Proof.
  induction s as [|c s IH]; [done|].
  by rewrite rev_cons, rev_append, IH.
Qed.

Lemma lstrip_head (s : string) :
  Py.lstrip s = "" \/ exists c t, Py.lstrip s = String c t /\ Py.isspace c = false.
Proof.
  induction s as [|c s IH]; simpl; [by left|].
  destruct (Py.isspace c) eqn:Hc; [exact IH|]. right. eauto.
Qed.

Lemma lstrip_fixed (c : ascii) (t : string) :
  Py.isspace c = false -> Py.lstrip (String c t) = String c t.
Proof. intros Hc. simpl. by rewrite Hc. Qed.

Lemma lstrip_idempotent (s : string) : Py.lstrip (Py.lstrip s) = Py.lstrip s.
Proof.
  destruct (lstrip_head s) as [->|(c & t & -> & Hc)]; [done|by apply lstrip_fixed].
Qed.

Lemma lstrip_keeps_last (s : string) (c : ascii) :
  Py.isspace c = false ->
  exists t, Py.lstrip (s +:+ String c "") = t +:+ String c "".
Proof.
  intros Hc. induction s as [|c' s IH].
  - exists "". rewrite append_nil_l. by apply lstrip_fixed.
  - rewrite append_cons. simpl. destruct (Py.isspace c'); [exact IH|].
    exists (String c' s). by rewrite append_cons.
Qed.

Lemma rstrip_keeps_head (c : ascii) (t : string) :
  Py.isspace c = false -> exists u, Py.rstrip (String c t) = String c u.
Proof.
  intros Hc. unfold Py.rstrip. rewrite rev_cons.
  destruct (lstrip_keeps_last (String.rev t) c Hc) as [y ->].
  exists (String.rev y). by rewrite rev_append.
Qed.

Lemma rstrip_idempotent (s : string) : Py.rstrip (Py.rstrip s) = Py.rstrip s.
Proof. unfold Py.rstrip. by rewrite rev_involutive, lstrip_idempotent. Qed.

Lemma strip_idempotent (s : string) : Py.strip (Py.strip s) = Py.strip s.
Proof.
  unfold Py.strip.
  destruct (lstrip_head s) as [->|(c & t & -> & Hc)]; [done|].
  destruct (rstrip_keeps_head c t Hc) as [u Hu].
  rewrite Hu, (lstrip_fixed c u Hc), <- Hu. apply rstrip_idempotent.
Qed.

(** The names of the aggregate are trimmed already: trimming one again
    changes nothing, and none is empty; so the name on a label never
    starts or ends with a blank. *)
Theorem aggregated_names_are_trimmed
    (records : list CanonicalOrderRow) (aggregated : list AggregatedOrder) :
  aggregate_orders records = Ok aggregated ->
  Forall (fun row => order_name row ≠ "" /\ Py.strip (order_name row) = order_name row)
         aggregated
  /\ Forall (fun card => name card ≠ "" /\ Py.strip (name card) = name card)
            (label_cards (sequencer_loop aggregated)).
Proof.
  intros Hagg.
  assert (Forall (fun row => order_name row ≠ ""
                             /\ Py.strip (order_name row) = order_name row)
                 aggregated) as Hrows.
  { apply Forall_forall. intros row Hrow.
    assert (order_name row ∈ map order_name aggregated) as Hin
      by (apply list_elem_of_fmap; eauto).
    apply (aggregate_orders_names _ _ _ Hagg) in Hin as (Hne & r & _ & Hr).
    split; [exact Hne|]. rewrite <- Hr. apply strip_idempotent. }
  split; [exact Hrows|].
  rewrite sequencer_loop_spec. simpl. apply Forall_forall.
  intros card (row & Hrow & [Hname _]%spec_cards_for_elem)%flat_map_cards_elem.
  rewrite Forall_forall in Hrows. rewrite Hname. by apply Hrows.
Qed.

(** Names with blanks around them, and one of blanks only. *)
Lemma aggregated_names_are_trimmed_witness :
  Forall (fun row => order_name row ≠ "" /\ Py.strip (order_name row) = order_name row)
    [ {| order_name := "Ann Lee"; carry_out := 3; dine_in := 0 |} ].
Proof.
  exact (proj1 (aggregated_names_are_trimmed
    [ {| row_name := "  Ann Lee"; row_carry_out := "1"; row_dine_in := "0" |};
      {| row_name := "   "; row_carry_out := "5"; row_dine_in := "5" |};
      {| row_name := "Ann Lee  "; row_carry_out := "2"; row_dine_in := "0" |} ]
    _ eq_refl)).
Defined.
